(** * ESMValTool diagnostic helpers: a shallow embedding

    This development embeds in Rocq the helper functions of
    [esmvaltool/diag_scripts/shared/_base.py] (metadata selection,
    grouping and sorting, the provenance logger, the output-directory
    set-up of [run_diagnostic]) and the observation loaders of the
    LMU ESA-CCI albedo and land-cover diagnostics, and proves the
    properties their specification states about them.

    Conventions.
    - Python scalars that YAML metadata can hold are the type [pyval]
      (None, bool, int, str); floats and nested containers are left out.
    - A string is a Python [str] in its UTF-8 encoding, so that the order
      of the bytes is the order of the code points.  [str.lower()]
      follows the Unicode character database, which is no part of the
      repository: it is the parameter [py_lower] of the development.
    - A [dict] whose iteration order is irrelevant is a [gmap]; a [dict]
      whose insertion order matters is an association list with Python's
      key equality ([py_eq], under which [True == 1]).
    - Exceptions are the type [exn]; a computation that may raise returns
      a [result].
    - Paths are lists of components below a root that always exists. *)

From Stdlib Require Import ZArith List Sorted Permutation Ascii String DecimalString.
From stdpp Require Import base decidable option list gmap strings fin_maps.

Open Scope string_scope.
Open Scope list_scope.

(** ** Exceptions and results *)

Definition path := list string.

Inductive exn : Type :=
  | KeyError (msg : string)
  | TypeError (msg : string)
  | AssertionError (msg : string)
  | IndexError (msg : string)
  | FileExistsError (p : path)
  | FileNotFoundError (p : path)
  | NotADirectoryError (p : path)
  | IsADirectoryError (p : path)
  | DiagnosticError (msg : string)
  | ExternalError (msg : string).

Inductive result (A : Type) : Type :=
  | Ok (a : A)
  | Raise (e : exn).
Arguments Ok {A} a.
Arguments Raise {A} e.

Definition rbind {A B} (m : result A) (k : A -> result B) : result B :=
  match m with
  | Ok a => k a
  | Raise e => Raise e
  end.

#[global] Instance result_ret : MRet result := fun _ a => Ok a.
#[global] Instance result_bind : MBind result := fun _ _ k m => rbind m k.

Definition is_ok {A} (m : result A) : bool :=
  match m with Ok _ => true | Raise _ => false end.

(** ** Python scalar values *)

Inductive pyval : Type :=
  | VNone
  | VBool (b : bool)
  | VInt (z : Z)
  | VStr (s : string).

#[global] Instance pyval_eq_dec : EqDecision pyval.
Proof. solve_decision. Defined.

(** Python's [==] on these scalars: [bool] is a subclass of [int], so
    [True == 1] and [False == 0]. *)
Definition py_eq (a b : pyval) : bool :=
  match a, b with
  | VNone, VNone => true
  | VBool x, VBool y => Bool.eqb x y
  | VBool x, VInt z => Z.eqb (Z.b2z x) z
  | VInt z, VBool y => Z.eqb z (Z.b2z y)
  | VInt x, VInt y => Z.eqb x y
  | VStr s, VStr t => String.eqb s t
  | _, _ => false
  end.

(** [str(v)]. *)
Definition py_str (v : pyval) : string :=
  match v with
  | VNone => "None"
  | VBool true => "True"
  | VBool false => "False"
  | VInt z => NilZero.string_of_int (Z.to_int z)
  | VStr s => s
  end.

(** [s.lower()].  Python lower-cases a string by the Unicode character
    database; the function is a parameter, given as a class so that the
    definitions below read as the code does.  Nothing is assumed of it
    unless a statement says so. *)
Class PyLower : Type := py_lower : string -> string.

(** On a string of ASCII characters, [s.lower()] lowers the letters
    [A] to [Z] and leaves every other character: [lower_ascii].  The
    class [PyLowerAscii] says of a lower-casing function that it does
    so; [lower_ascii] itself stands for [str.lower()] in the examples,
    all of them over ASCII strings. *)
Definition lower_ascii_char (c : ascii) : ascii :=
  let n := N_of_ascii c in
  if (65 <=? n)%N && (n <=? 90)%N then ascii_of_N (n + 32) else c.

Fixpoint lower_ascii (s : string) : string :=
  match s with
  | EmptyString => EmptyString
  | String c t => String (lower_ascii_char c) (lower_ascii t)
  end.

Fixpoint is_ascii (s : string) : bool :=
  match s with
  | EmptyString => true
  | String c t => (N_of_ascii c <? 128)%N && is_ascii t
  end.

Class PyLowerAscii (L : PyLower) : Prop :=
  py_lower_ascii : forall s, is_ascii s = true -> py_lower s = lower_ascii s.

(** A metadata record: a [dict] with string keys. *)
Abbreviation record := (gmap string pyval).

(** ** select_metadata *)

(** The generator inside [all(...)]: one constrained attribute [a] with
    its required value [v = attributes[a]]. *)
Definition attribute_matches (attribs : record) (av : string * pyval) : bool :=
  match attribs !! av.1 with
  | None => false
  | Some w => py_eq w av.2 || py_eq av.2 (VStr "*")
  end.

Definition select_metadata (metadata : list record) (attributes : record)
  : list record :=
  fold_left
    (fun selection attribs =>
       if forallb (attribute_matches attribs) (map_to_list attributes)
       then selection ++ [attribs]
       else selection)
    metadata [].

(** ** Python's [sorted(iterable, key=...)]

    The builtin is a stable sort that compares keys with [<] only.  It
    is modelled by the stable insertion sort below; theorem
    [py_sorted_unique] shows that every stable sort returns this list. *)

Section PySorted.
Context {A K : Type} (cmp : K -> K -> comparison) (key : A -> K).

Definition key_lt (a b : A) : bool :=
  match cmp (key a) (key b) with Lt => true | _ => false end.

(** [x] stood before every element of [l] in the input: it stays
    before the elements whose key is not smaller than its own. *)
Fixpoint insert_stable (x : A) (l : list A) : list A :=
  match l with
  | [] => [x]
  | y :: l' => if key_lt y x then y :: insert_stable x l' else x :: l
  end.

Definition py_sorted (l : list A) : list A := foldr insert_stable [] l.

(** The order the sort establishes and key equality. *)
Definition key_le (a b : A) : Prop := cmp (key b) (key a) <> Lt.
Definition same_key (k : K) (a : A) : bool :=
  match cmp (key a) k with Eq => true | _ => false end.
End PySorted.

(** Python compares sequences lexicographically: the first position
    where the elements differ decides, a proper prefix is smaller. *)
Fixpoint lex_compare {A} (cmp : A -> A -> comparison) (xs ys : list A)
  : comparison :=
  match xs, ys with
  | [], [] => Eq
  | [], _ :: _ => Lt
  | _ :: _, [] => Gt
  | x :: xs', y :: ys' =>
      match cmp x y with
      | Eq => lex_compare cmp xs' ys'
      | c => c
      end
  end.

(** [str] against [str] (by code point) and [tuple] of [str] against
    [tuple] of [str]. *)
Definition str_compare : string -> string -> comparison := String.compare.
Definition tuple_compare : list string -> list string -> comparison :=
  lex_compare str_compare.

(** The laws of a total order given by a three-way comparison. *)
Class CmpLaws {K : Type} (cmp : K -> K -> comparison) : Prop := {
  cmp_refl : forall x, cmp x x = Eq;
  cmp_eq : forall x y, cmp x y = Eq -> x = y;
  cmp_antisym : forall x y, cmp y x = CompOpp (cmp x y);
  cmp_lt_trans : forall x y z, cmp x y = Lt -> cmp y z = Lt -> cmp x z = Lt
}.

(** ** Insertion-ordered dictionaries with Python keys *)

Abbreviation odict V := (list (pyval * V)).

(** [k in d] *)
Definition dict_mem {V} (k : pyval) (d : odict V) : bool :=
  existsb (fun kv => py_eq kv.1 k) d.

(** [d[k]], [None] standing for [KeyError] *)
Fixpoint dict_get {V} (k : pyval) (d : odict V) : option V :=
  match d with
  | [] => None
  | (k', v) :: d' => if py_eq k' k then Some v else dict_get k d'
  end.

(** [d[k] = v]: an existing key keeps its place (and its key object), a
    new key goes to the end. *)
Fixpoint dict_set {V} (k : pyval) (v : V) (d : odict V) : odict V :=
  match d with
  | [] => [(k, v)]
  | (k', v') :: d' =>
      if py_eq k' k then (k', v) :: d' else (k', v') :: dict_set k v d'
  end.

(** In-place mutation of the object stored under [k], as in
    [d[k].append(x)] *)
Fixpoint dict_alter {V} (f : V -> V) (k : pyval) (d : odict V) : odict V :=
  match d with
  | [] => []
  | (k', v') :: d' =>
      if py_eq k' k then (k', f v') :: d' else (k', v') :: dict_alter f k d'
  end.

(** Whether a list of keys holds a key equal to [k], and the lists of
    pairwise different keys: a dictionary holds each key once. *)
Definition key_mem (k : pyval) (ks : list pyval) : bool :=
  existsb (fun k' => py_eq k' k) ks.

Fixpoint keys_wf (ks : list pyval) : Prop :=
  match ks with
  | [] => True
  | k :: ks' => key_mem k ks' = false /\ keys_wf ks'
  end.

Definition dict_wf {V} (d : odict V) : Prop := keys_wf (map fst d).

(** ** sorted_metadata *)

(** The [sort] argument: absent, a [bool], one attribute name or a list
    of attribute names. *)
Inductive sort_spec : Type :=
  | SortNone
  | SortBool (b : bool)
  | SortStr (s : string)
  | SortKeys (ks : list string).

(** Truth value of [sort] in [if sort:] *)
Definition sort_truthy (sort : sort_spec) : bool :=
  match sort with
  | SortNone => false
  | SortBool b => b
  | SortStr s => negb (String.eqb s "")
  | SortKeys ks => match ks with [] => false | _ => true end
  end.

(** [tuple(str(attributes.get(k, '')).lower() for k in sort)] *)
Definition normalized_variable_key {L : PyLower} (sort : list string)
    (attributes : record) : list string :=
  map (fun k => py_lower (py_str (default (VStr "") (attributes !! k)))) sort.

Definition sorted_metadata {L : PyLower} (metadata : list record)
    (sort : sort_spec) : result (list record) :=
  match sort with
  | SortStr s =>
      Ok (py_sorted tuple_compare (normalized_variable_key [s]) metadata)
  | SortKeys ks =>
      Ok (py_sorted tuple_compare (normalized_variable_key ks) metadata)
  | SortNone =>
      (* the key function runs once per element: no element, no error *)
      match metadata with
      | [] => Ok []
      | _ :: _ => Raise (TypeError "'NoneType' object is not iterable")
      end
  | SortBool _ =>
      match metadata with
      | [] => Ok []
      | _ :: _ => Raise (TypeError "'bool' object is not iterable")
      end
  end.

(** ** sorted_group_metadata *)

(** ['' if key is None else str(key).lower()] *)
Definition normalized_group_key {L : PyLower} (key : pyval) : string :=
  match key with
  | VNone => ""
  | _ => py_lower (py_str key)
  end.

(** One turn of [for key in sorted(...): groups[key] = ...] *)
Definition sorted_group_step {L : PyLower}
    (metadata_groups : odict (list record))
    (sort : sort_spec) (groups : odict (list record)) (key : pyval)
  : result (odict (list record)) :=
  match dict_get key metadata_groups with
  | None => Raise (KeyError (py_str key))
  | Some members =>
      sorted_members ← sorted_metadata members sort;
      Ok (dict_set key sorted_members groups)
  end.

Fixpoint for_each {S X} (body : S -> X -> result S) (xs : list X) (s : S)
  : result S :=
  match xs with
  | [] => Ok s
  | x :: xs' => s' ← body s x; for_each body xs' s'
  end.

Definition sorted_group_metadata {L : PyLower}
    (metadata_groups : odict (list record)) (sort : sort_spec)
  : result (odict (list record)) :=
  let sort := match sort with SortBool true => SortKeys [] | _ => sort end in
  for_each (sorted_group_step metadata_groups sort)
    (py_sorted str_compare normalized_group_key (map fst metadata_groups))
    [].

(** ** group_metadata *)

Definition group_step (attribute : string) (groups : odict (list record))
    (attributes : record) : odict (list record) :=
  let key := default VNone (attributes !! attribute) in
  let groups :=
    if negb (dict_mem key groups) then dict_set key [] groups else groups in
  dict_alter (fun members => members ++ [attributes]) key groups.

Definition group_metadata {L : PyLower} (metadata : list record)
    (attribute : string) (sort : sort_spec) : result (odict (list record)) :=
  let groups := fold_left (group_step attribute) metadata [] in
  if sort_truthy sort then sorted_group_metadata groups sort else Ok groups.

(** ** The world: a file system and the logging output

    A provenance record maps keys such as [caption] or [authors] to a
    string or a list of strings.  A regular file is represented by the
    YAML document it holds, that is by the value [yaml.safe_load]
    returns for it and [yaml.safe_dump] writes: a table, or [None] for
    an empty document. *)

Inductive prov_value : Type :=
  | PStr (s : string)
  | PList (l : list string).

Abbreviation prov_record := (gmap string prov_value).

Inductive pytable : Type :=
  | TNone
  | TDict (t : gmap string prov_record).

Inductive node : Type :=
  | Dir
  | File (doc : pytable).

Inductive log_level : Type := DEBUG | INFO | WARNING | ERROR.

Record world : Type := World {
  files : gmap path node;
  log_records : list (log_level * string)
}.

(** Computations that read and change the world and may raise; the
    world at the time of the exception is kept. *)
Definition io (A : Type) : Type := world -> result A * world.

Definition io_pure {A} (a : A) : io A := fun w => (Ok a, w).
#[global] Instance io_ret : MRet io := @io_pure.
#[global] Instance io_bind : MBind io := fun _ _ k m w =>
  match m w with
  | (Ok a, w') => k a w'
  | (Raise e, w') => (Raise e, w')
  end.

Definition io_raise {A} (e : exn) : io A := fun w => (Raise e, w).

(** The root is a directory that is always there. *)
Definition node_at (fs : gmap path node) (p : path) : option node :=
  match p with
  | [] => Some Dir
  | _ => fs !! p
  end.

(** [os.path.join(p, name)] and [os.path.dirname(p)] *)
Definition path_join (p : path) (name : string) : path := p ++ [name].
Definition dirname (p : path) : path := removelast p.

Definition path_str (p : path) : string := "/" +:+ String.concat "/" p.

(** [os.path.exists(p)] *)
Definition os_path_exists (p : path) : io bool := fun w =>
  (Ok (bool_decide (is_Some (node_at (files w) p))), w).

(** [os.mkdir(p)] *)
Definition os_mkdir (p : path) : io unit := fun w =>
  match node_at (files w) p with
  | Some _ => (Raise (FileExistsError p), w)
  | None =>
      match node_at (files w) (dirname p) with
      | None => (Raise (FileNotFoundError p), w)
      | Some (File _) => (Raise (NotADirectoryError p), w)
      | Some Dir => (Ok tt, World (<[p := Dir]> (files w)) (log_records w))
      end
  end.

(** [os.makedirs(p)]: the missing ancestors are made first, then [p]
    itself; the recursion of the library function goes up the path, so
    the path is taken leaf first. *)
Fixpoint makedirs_rev (rp : list string) : io unit :=
  match rp with
  | [] => os_mkdir []
  | _ :: rhead =>
      head_exists ← os_path_exists (rev rhead);
      _ ← (if negb head_exists then makedirs_rev rhead else io_pure tt);
      os_mkdir (rev rp)
  end.

Definition os_makedirs (p : path) : io unit := makedirs_rev (rev p).

(** [shutil.rmtree(p)] *)
Definition shutil_rmtree (p : path) : io unit := fun w =>
  match node_at (files w) p with
  | None => (Raise (FileNotFoundError p), w)
  | Some (File _) => (Raise (NotADirectoryError p), w)
  | Some Dir =>
      (Ok tt,
       World (filter (fun qn => ~ p `prefix_of` qn.1) (files w))
             (log_records w))
  end.

(** [with open(p, 'r') as file: yaml.safe_load(file)] *)
Definition read_yaml (p : path) : io pytable := fun w =>
  match node_at (files w) p with
  | None => (Raise (FileNotFoundError p), w)
  | Some Dir => (Raise (IsADirectoryError p), w)
  | Some (File doc) => (Ok doc, w)
  end.

(** [with open(p, 'w') as file: yaml.safe_dump(doc, file)] *)
Definition write_yaml (p : path) (doc : pytable) : io unit := fun w =>
  match node_at (files w) p with
  | Some Dir => (Raise (IsADirectoryError p), w)
  | _ =>
      match node_at (files w) (dirname p) with
      | None => (Raise (FileNotFoundError p), w)
      | Some (File _) => (Raise (NotADirectoryError p), w)
      | Some Dir =>
          (Ok tt, World (<[p := File doc]> (files w)) (log_records w))
      end
  end.

(** [logger.<level>(msg)] *)
Definition logger_emit (level : log_level) (msg : string) : io unit :=
  fun w => (Ok tt, World (files w) (log_records w ++ [(level, msg)])).

(** ** ProvenanceLogger *)

Record ProvenanceLogger : Type := Logger {
  _log_file : path;
  table : pytable
}.

(** [ProvenanceLogger.__init__(self, cfg)], from [cfg['work_dir']] *)
Definition ProvenanceLogger_init (work_dir : path) : io ProvenanceLogger :=
  let log_file := path_join work_dir "diagnostic_provenance.yml" in
  found ← os_path_exists log_file;
  if negb found then io_pure (Logger log_file (TDict ∅))
  else (doc ← read_yaml log_file; io_pure (Logger log_file doc)).

(** [ProvenanceLogger.log(self, filename, record)]: the outcome of the
    call and the object after it. *)
Definition log (filename : string) (rec : prov_record)
    (self : ProvenanceLogger) : result unit * ProvenanceLogger :=
  match table self with
  | TNone =>
      (Raise (TypeError "argument of type 'NoneType' is not iterable"), self)
  | TDict t =>
      if bool_decide (is_Some (t !! filename)) then
        (Raise (KeyError ("Provenance record for " +:+ filename
                          +:+ " already exists.")), self)
      else
        (Ok tt, Logger (_log_file self) (TDict (<[filename := rec]> t)))
  end.

(** [ProvenanceLogger._save(self)] *)
Definition _save (self : ProvenanceLogger) : io unit :=
  let dir := dirname (_log_file self) in
  found ← os_path_exists dir;
  _ ← (if negb found then os_makedirs dir else io_pure tt);
  write_yaml (_log_file self) (table self).

(** What the body of a [with ProvenanceLogger(cfg) as provenance_logger:]
    block does with the logger: it logs, it logs inside a [try] that
    swallows the error, or some other code of it raises. *)
Inductive stmt : Type :=
  | SLog (filename : string) (rec : prov_record)
  | STryLog (filename : string) (rec : prov_record)
  | SRaise (e : exn).

Fixpoint run_body (body : list stmt) (self : ProvenanceLogger)
  : result unit * ProvenanceLogger :=
  match body with
  | [] => (Ok tt, self)
  | SLog f r :: rest =>
      match log f r self with
      | (Ok _, self') => run_body rest self'
      | (Raise e, self') => (Raise e, self')
      end
  | STryLog f r :: rest => run_body rest (log f r self).2
  | SRaise e :: _ => (Raise e, self)
  end.

(** The calls of [log] that returned normally while the body ran. *)
Fixpoint successfully_logged (body : list stmt) (self : ProvenanceLogger)
  : list (string * prov_record) :=
  match body with
  | [] => []
  | SLog f r :: rest =>
      match log f r self with
      | (Ok _, self') => (f, r) :: successfully_logged rest self'
      | (Raise _, _) => []
      end
  | STryLog f r :: rest =>
      match log f r self with
      | (Ok _, self') => (f, r) :: successfully_logged rest self'
      | (Raise _, self') => successfully_logged rest self'
      end
  | SRaise _ :: _ => []
  end.

(** [ProvenanceLogger.__exit__(self, *_)] *)
Definition __exit__ (self : ProvenanceLogger) : io unit := _save self.

(** How a [with] statement ends: the exit method runs however the body
    ended; it returns [None] here, so an exception of the body
    propagates afterwards, and an exception of the exit method itself
    replaces it. *)
Definition with_exit {A} (outcome : result A) (exit : io unit) : io A :=
  fun w =>
    match exit w with
    | (Ok _, w') => (outcome, w')
    | (Raise e, w') => (Raise e, w')
    end.

(** [with ProvenanceLogger(cfg) as provenance_logger: body]:
    [__init__], [__enter__] (returns [self]), the body, [__exit__]. *)
Definition with_ProvenanceLogger (work_dir : path) (body : list stmt)
  : io unit :=
  self ← ProvenanceLogger_init work_dir;
  with_exit (run_body body self).1 (__exit__ (run_body body self).2).

(** ** run_diagnostic: preparing the output directories

    The part of the context manager from [# Create output directories]
    to [yield cfg], on the configuration and the parsed arguments. *)

Record config : Type := Config {
  write_netcdf : bool;
  write_plots : bool;
  work_dir : path;
  plot_dir : path
}.

Record arguments : Type := Arguments {
  force : bool;
  ignore_existing : bool
}.

Fixpoint for_each_io {X} (body : X -> io unit) (xs : list X) : io unit :=
  match xs with
  | [] => io_pure tt
  | x :: xs' => _ ← body x; for_each_io body xs'
  end.

(** [[p for p in xs if test(p)]] *)
Fixpoint filter_io {X} (test : X -> io bool) (xs : list X) : io (list X) :=
  match xs with
  | [] => io_pure []
  | x :: xs' =>
      keep ← test x;
      rest ← filter_io test xs';
      io_pure (if keep : bool then x :: rest else rest)
  end.

Definition nl : string := String (ascii_of_nat 10) EmptyString.

Definition abort_message (existing : list path) : string :=
  "Script will abort to prevent accidentally overwriting your "
  +:+ "data in these directories:" +:+ nl
  +:+ String.concat nl (map path_str existing) +:+ nl
  +:+ "Use -f or --force to force emptying the output directories "
  +:+ "or use -i or --ignore-existing to ignore existing output "
  +:+ "directories.".

(** The list [output_directories] the function builds first. *)
Definition output_directories (cfg : config) : list path :=
  (if write_netcdf cfg then [work_dir cfg] else [])
  ++ (if write_plots cfg then [plot_dir cfg] else []).

Definition run_diagnostic (cfg : config) (args : arguments) : io config :=
  let output_directories := output_directories cfg in
  existing ← filter_io os_path_exists output_directories;
  _ ← match existing with
      | [] => io_pure tt
      | _ :: _ =>
          if force args then
            for_each_io
              (fun output_directory =>
                 _ ← logger_emit INFO ("Removing " +:+ path_str output_directory);
                 shutil_rmtree output_directory)
              existing
          else if negb (ignore_existing args) then
            logger_emit ERROR (abort_message existing)
          else io_pure tt
      end;
  _ ← for_each_io
        (fun output_directory =>
           _ ← logger_emit INFO ("Creating " +:+ path_str output_directory);
           skip ← (if ignore_existing args
                   then os_path_exists output_directory else io_pure false);
           if skip : bool then io_pure tt else os_makedirs output_directory)
        output_directories;
  (* yield cfg *)
  io_pure cfg.

(** ** Observation loaders of the albedo and land-cover diagnostics

    The netCDF library, the aggregation tool and the generic loader of
    the base class are outside the repository: they are the fields of
    [external], each returning its value or the message of the
    exception it raised.  The interpreter runs with assertions enabled,
    its default, so [assert False, msg] raises [AssertionError(msg)]. *)

Record external (D : Type) : Type := External {
  (* [Dataset(f)], the sizes of its dimensions [lat] and [lon], [close()] *)
  dataset_dims : string -> string + (Z * Z);
  (* [os.path.exists(f)] *)
  file_exists : string -> bool;
  (* [self._aggregate_resolution(f, grid, remove=False)] *)
  aggregate_resolution : string -> string -> string + string;
  (* [os.remove(f)] *)
  os_remove : string -> string + unit;
  (* [self._load_cci_generic(f, var)] *)
  load_cci_generic : string -> string -> string + D;
  (* [data.unit = u] *)
  set_unit : D -> string -> D;
  (* [self._project_info['RUNTIME']['currDiag'].get_variables()[0]] *)
  current_variable : string + string
}.
Arguments dataset_dims {D}.
Arguments file_exists {D}.
Arguments aggregate_resolution {D}.
Arguments os_remove {D}.
Arguments load_cci_generic {D}.
Arguments set_unit {D}.
Arguments current_variable {D}.

Definition lift_ext {A} (r : string + A) : result A :=
  match r with
  | inl msg => Raise (ExternalError msg)
  | inr a => Ok a
  end.

(** The fields of a diagnostic object the loaders use. *)
Record diagnostic (D : Type) : Type := Diagnostic {
  _ref_file : string;
  _work_dir : string;
  var : string;
  _ref_data : option D
}.
Arguments Diagnostic {D}.
Arguments _ref_file {D}.
Arguments _work_dir {D}.
Arguments var {D}.
Arguments _ref_data {D}.

(** [s.split("/")] *)
Fixpoint split_slash (s : string) : list string :=
  match s with
  | EmptyString => [EmptyString]
  | String c t =>
      if Ascii.eqb c "/" then EmptyString :: split_slash t
      else match split_slash t with
           | h :: r => String c h :: r
           | [] => [String c EmptyString]
           end
  end.

(** [s[-1]] *)
Fixpoint last_char (s : string) : option ascii :=
  match s with
  | EmptyString => None
  | String c EmptyString => Some c
  | String _ t => last_char t
  end.

Definition os_sep : string := "/".

Definition is_known_grid (lat lon : Z) : bool :=
  ((lat =? 96)%Z && (lon =? 192)%Z)
  || ((lat =? 6)%Z && (lon =? 12)%Z)
  || ((lat =? 18)%Z && (lon =? 36)%Z).

(** The statements both [_load_observation_data] methods start with,
    up to the choice on the variable; they differ in the name of the
    auxiliary directory only. *)
Definition regrid_reference {D} (ext : external D) (aux_dir : string)
    (self : diagnostic D) : result (diagnostic D) :=
  let newfile := split_slash (_ref_file self +:+ ".T63built.nc") in
  last ← match last_char (_work_dir self) with
         | None => Raise (IndexError "string index out of range")
         | Some c => Ok c
         end;
  let newdir :=
    (if Ascii.eqb last "/" then _work_dir self
     else _work_dir self +:+ os_sep) +:+ aux_dir in
  let newfile := newdir +:+ os_sep +:+ List.last newfile EmptyString in
  dims ← lift_ext (dataset_dims ext (_ref_file self));
  if negb (is_known_grid dims.1 dims.2) then
    _ ← (if negb (file_exists ext newfile) then
           tempfile ← lift_ext (aggregate_resolution ext (_ref_file self) "T63");
           (* subprocess.call(["mkdir", newdir]) and
              subprocess.call(['cp', tempfile, newfile]) return an exit
              status that is dropped *)
           lift_ext (os_remove ext tempfile)
         else Ok tt);
    Ok (Diagnostic newfile (_work_dir self) (var self) (_ref_data self))
  else Ok self.

(** [AlbedoDiagnostic._load_observation_data(self)] *)
Definition alb_load_observation_data {D} (ext : external D)
    (self : diagnostic D) : result (diagnostic D) :=
  self ← regrid_reference ext "AUX_Files_alb_QA4ECV" self;
  proj_var ← lift_ext (current_variable ext);
  ref_data ← (if String.eqb proj_var "alb" then
                lift_ext (load_cci_generic ext (_ref_file self) proj_var)
              else Raise (AssertionError "Not supported yet"));
  Ok (Diagnostic (_ref_file self) (_work_dir self) (var self)
        (Some (set_unit ext ref_data "-"))).

(** [LandCoverDiagnostic._load_observation_data(self)] *)
Definition lc_load_observation_data {D} (ext : external D)
    (self : diagnostic D) : result (diagnostic D) :=
  self ← regrid_reference ext "AUX_Files_lc_ESACCI" self;
  if bool_decide (var self ∈ ["baresoilFrac"; "grassNcropFrac"; "shrubNtreeFrac"])
  then
    ref_data ← lift_ext (load_cci_generic ext (_ref_file self) (var self));
    Ok (Diagnostic (_ref_file self) (_work_dir self) (var self) (Some ref_data))
  else Raise (AssertionError "Not supported yet").

(** ** Notions the specification is stated with *)

(** Python's [==] identifies [True] with [1] and [False] with [0]:
    two scalars are equal when they have the same normal form. *)
Definition py_norm (v : pyval) : pyval :=
  match v with
  | VBool b => VInt (Z.b2z b)
  | _ => v
  end.

(** A record meets the constraint [a = v] when it has the attribute and
    its value equals [v] or [v] is the wildcard. *)
Definition constraint_ok (r : record) (a : string) (v : pyval) : Prop :=
  match r !! a with
  | Some w => py_eq w v = true \/ v = VStr "*"
  | None => False
  end.

#[global] Instance constraint_ok_dec r a v : Decision (constraint_ok r a v).
Proof. unfold constraint_ok. destruct (r !! a); apply _. Defined.

(** A record satisfies a set of constraints when it meets each one. *)
Definition satisfies (attributes : record) (r : record) : Prop :=
  map_Forall (constraint_ok r) attributes.

(** The key a record is grouped under, [attributes.get(attribute)], and
    the records of a list that go under the key [k]. *)
Definition group_key (attribute : string) (r : record) : pyval :=
  default VNone (r !! attribute).

Definition members_of (attribute : string) (k : pyval) (l : list record)
  : list record :=
  filter (fun r => py_eq k (group_key attribute r)) l.

(** The distinct keys of a list, each at its first occurrence. *)
Fixpoint first_keys (ks : list pyval) : list pyval :=
  match ks with
  | [] => []
  | k :: ks' => k :: filter (fun k' => negb (py_eq k k')) (first_keys ks')
  end.

(** A stable sort of [l] by [key]: ordered, and for every key value the
    elements with that key are those of [l] in the order of [l]. *)
Definition stable_sort_of {A K} (cmp : K -> K -> comparison) (key : A -> K)
    (l out : list A) : Prop :=
  StronglySorted (key_le cmp key) out
  /\ out ≡ₚ l
  /\ forall k, filter (same_key cmp key k) out = filter (same_key cmp key k) l.

(** The string a record is sorted by under attribute [k]:
    [str(attributes.get(k, ''))]. *)
Definition attribute_str (r : record) (k : string) : string :=
  match r !! k with
  | Some v => py_str v
  | None => ""
  end.

(** Two characters that are the same letter in either case, and two
    strings that differ in the case of their ASCII letters only. *)
Definition is_upper (c : ascii) : bool :=
  (65 <=? N_of_ascii c)%N && (N_of_ascii c <=? 90)%N.

Definition same_letter (c d : ascii) : bool :=
  Ascii.eqb c d
  || (is_upper c && (N_of_ascii d =? N_of_ascii c + 32)%N)
  || (is_upper d && (N_of_ascii c =? N_of_ascii d + 32)%N).

Fixpoint eq_ignoring_case (s t : string) : bool :=
  match s, t with
  | EmptyString, EmptyString => true
  | String c s', String d t' => same_letter c d && eq_ignoring_case s' t'
  | _, _ => false
  end.

(** The sort specifications [sorted_group_metadata] is documented for:
    [True], one attribute name, or a list of attribute names. *)
Definition sort_given (sort : sort_spec) : bool :=
  match sort with
  | SortBool true | SortStr _ | SortKeys _ => true
  | SortBool false | SortNone => false
  end.

(** A world that keeps every file and directory of an earlier one, with
    the same contents, and every log record. *)
Definition extends (w w' : world) : Prop :=
  files w ⊆ files w'
  /\ exists more, log_records w' = log_records w ++ more.

(** [os.path.exists(p)] as a function of the world. *)
Definition exists_in (w : world) (p : path) : bool :=
  bool_decide (is_Some (node_at (files w) p)).

(** A file system in which every file and directory lies in a
    directory. *)
Definition fs_wf (fs : gmap path node) : Prop :=
  forall p n, fs !! p = Some n -> node_at fs (dirname p) = Some Dir.

(** A path strictly below a directory. *)
Definition is_under (d q : path) : Prop := d `prefix_of` q /\ d <> q.

#[global] Instance is_under_dec d q : Decision (is_under d q).
Proof. unfold is_under. apply _. Defined.

(** ** get_plot_filename and get_diagnostic_filename

    The configuration is the dictionary loaded from [settings.yml].
    [os.path.join] is the POSIX one: a second part that starts with
    ["/"] replaces the first, otherwise the parts are put together with
    one separator unless the first is empty or ends with one. *)

Definition starts_with_sep (s : string) : bool :=
  match s with
  | String c _ => Ascii.eqb c "/"
  | EmptyString => false
  end.

Definition ends_with_sep (s : string) : bool :=
  match last_char s with
  | Some c => Ascii.eqb c "/"
  | None => false
  end.

Definition os_path_join (a b : string) : string :=
  if starts_with_sep b then b
  else if String.eqb a "" || ends_with_sep a then a +:+ b
  else a +:+ "/" +:+ b.

(** [cfg[key]] *)
Definition cfg_get (cfg : gmap string pyval) (key : string) : result pyval :=
  match cfg !! key with
  | Some v => Ok v
  | None => Raise (KeyError key)
  end.

(** A value that has to be a [str] where it is used. *)
Definition as_str (v : pyval) (msg : string) : result string :=
  match v with
  | VStr s => Ok s
  | _ => Raise (TypeError msg)
  end.

(** [os.path.join(cfg[dir_key], basename + '.' + extension)]: the
    directory is looked up first, then the file name is built, then the
    parts are joined. *)
Definition join_in_dir (dir : pyval) (name : string) : result string :=
  d ← as_str dir "expected str, bytes or os.PathLike object";
  Ok (os_path_join d name).

Definition get_plot_filename (basename : string) (cfg : gmap string pyval)
  : result string :=
  plot_dir ← cfg_get cfg "plot_dir";
  output_file_type ← cfg_get cfg "output_file_type";
  extension ← as_str output_file_type "can only concatenate str to str";
  join_in_dir plot_dir (basename +:+ "." +:+ extension).

Definition get_diagnostic_filename (basename : string)
    (cfg : gmap string pyval) (extension : string) : result string :=
  work_dir ← cfg_get cfg "work_dir";
  join_in_dir work_dir (basename +:+ "." +:+ extension).


(** * Properties *)

(** ** Python equality is an equivalence on the scalars *)

Lemma py_eq_norm a b : py_eq a b = true <-> py_norm a = py_norm b.
Proof.
  destruct a as [|[]|x|s], b as [|[]|y|t]; cbn [py_eq py_norm Z.b2z Bool.eqb];
    rewrite ?Z.eqb_eq, ?String.eqb_eq; split; intros E;
    try done; try (by inversion E); try (by subst).
Qed.

Lemma py_eq_refl a : py_eq a a = true.
Proof. by apply py_eq_norm. Qed.

Lemma py_eq_sym a b : py_eq a b = py_eq b a.
Proof.
  destruct (py_eq a b) eqn:E, (py_eq b a) eqn:F; try done.
  - apply py_eq_norm in E. symmetry in E. apply py_eq_norm in E. congruence.
  - apply py_eq_norm in F. symmetry in F. apply py_eq_norm in F. congruence.
Qed.

Lemma py_eq_trans a b c :
  py_eq a b = true -> py_eq b c = true -> py_eq a c = true.
Proof. rewrite !py_eq_norm. congruence. Qed.

Lemma py_eq_congr_l a b c : py_eq a b = true -> py_eq a c = py_eq b c.
Proof.
  intros E. destruct (py_eq b c) eqn:F.
  - by eapply py_eq_trans.
  - destruct (py_eq a c) eqn:G; [|done].
    rewrite py_eq_sym in E. by rewrite (py_eq_trans _ _ _ E G) in F.
Qed.

Lemma py_eq_star v : py_eq v (VStr "*") = true <-> v = VStr "*".
Proof.
  destruct v as [|[]|z|s]; simpl; try (split; [done | by inversion 1]).
  rewrite String.eqb_eq. split; [by intros -> | by inversion 1].
Qed.

(** ** The comparisons are total orders *)

#[global] Instance ascii_cmp_laws : CmpLaws Ascii.compare.
Proof.
  split; unfold Ascii.compare.
  - intros x. apply N.compare_refl.
  - intros x y E. apply N.compare_eq in E.
    rewrite <- (ascii_N_embedding x), <- (ascii_N_embedding y). by rewrite E.
  - intros x y. apply N.compare_antisym.
  - intros x y z. rewrite !N.compare_lt_iff. lia.
Qed.

#[global] Instance lex_cmp_laws {A} (cmp : A -> A -> comparison) :
  CmpLaws cmp -> CmpLaws (lex_compare cmp).
Proof.
  intros L. split.
  - induction x as [|x xs IH]; simpl; [done|]. by rewrite cmp_refl.
  - induction x as [|x xs IH]; intros [|y ys]; simpl; try done.
    destruct (cmp x y) eqn:E; try done.
    intros F. apply cmp_eq in E as ->. by rewrite (IH _ F).
  - induction x as [|x xs IH]; intros [|y ys]; simpl; try done.
    rewrite (cmp_antisym x y). destruct (cmp x y); simpl; auto.
  - induction x as [|x xs IH]; intros [|y ys] [|z zs]; simpl; try done.
    destruct (cmp x y) eqn:E, (cmp y z) eqn:F; try done.
    + apply cmp_eq in E as ->. rewrite F. apply IH.
    + apply cmp_eq in E as ->. by rewrite F.
    + apply cmp_eq in F as <-. by rewrite E.
    + by rewrite (cmp_lt_trans _ _ _ E F).
Qed.

Lemma str_compare_lex s t :
  str_compare s t
  = lex_compare Ascii.compare (list_ascii_of_string s) (list_ascii_of_string t).
Proof.
  revert t. induction s as [|c s IH]; intros [|d t]; simpl; try done.
  rewrite IH. by destruct (Ascii.compare c d).
Qed.

#[global] Instance str_cmp_laws : CmpLaws str_compare.
Proof.
  split; intros *; rewrite ?str_compare_lex.
  - apply cmp_refl.
  - intros E. apply cmp_eq in E.
    rewrite <- (string_of_list_ascii_of_string x),
            <- (string_of_list_ascii_of_string y). by rewrite E.
  - apply cmp_antisym.
  - apply cmp_lt_trans.
Qed.

#[global] Instance tuple_cmp_laws : CmpLaws tuple_compare.
Proof. unfold tuple_compare. apply _. Qed.

(** ** The stable sort *)

Section PySortedFacts.
Context {A K : Type} (cmp : K -> K -> comparison) `{!CmpLaws cmp}.
Context (key : A -> K).

Local Abbreviation le := (key_le cmp key).
Local Abbreviation lt := (key_lt cmp key).
Local Abbreviation same := (same_key cmp key).
Local Abbreviation insert := (insert_stable cmp key).
Local Abbreviation sorted := (py_sorted cmp key).

Lemma key_lt_false_le x y : lt y x = false <-> le x y.
Proof. unfold key_lt, key_le. destruct (cmp (key y) (key x)); naive_solver. Qed.

Lemma key_lt_le x y : lt x y = true -> le x y.
Proof.
  unfold key_lt, key_le. rewrite (cmp_antisym (key x) (key y)).
  by destruct (cmp (key x) (key y)).
Qed.

Lemma key_le_trans x y z : le x y -> le y z -> le x z.
Proof.
  unfold key_le. intros Hxy Hyz Hzx.
  destruct (cmp (key y) (key x)) eqn:E; [| done |].
  - apply cmp_eq in E. congruence.
  - rewrite (cmp_antisym (key x) (key y)) in E.
    destruct (cmp (key x) (key y)) eqn:F; try done.
    apply Hyz. by eapply cmp_lt_trans.
Qed.

Lemma key_le_antisym x y : le x y -> le y x -> key x = key y.
Proof.
  unfold key_le. intros Hxy Hyx. apply cmp_eq.
  rewrite (cmp_antisym (key y) (key x)) in Hyx |- *.
  destruct (cmp (key y) (key x)); simpl in *; congruence.
Qed.

Lemma same_key_iff k x : same k x = true <-> key x = k.
Proof.
  unfold same_key. split.
  - destruct (cmp (key x) k) eqn:E; try done. intros _. by apply cmp_eq.
  - intros <-. by rewrite cmp_refl.
Qed.

Lemma key_lt_not_same k x y : lt y x = true -> same k x = true -> same k y = false.
Proof.
  intros Hlt Hx. apply same_key_iff in Hx. subst k.
  unfold key_lt in Hlt. unfold same_key.
  by destruct (cmp (key y) (key x)).
Qed.

Lemma insert_stable_perm x l : insert x l ≡ₚ x :: l.
Proof.
  induction l as [|y l IH]; simpl; [done|].
  destruct (lt y x); [|done]. rewrite IH. apply Permutation_swap.
Qed.

Lemma py_sorted_perm l : sorted l ≡ₚ l.
Proof.
  induction l as [|x l IH]; simpl; [done|].
  by rewrite insert_stable_perm, IH.
Qed.

Lemma insert_stable_sorted x l :
  StronglySorted le l -> StronglySorted le (insert x l).
Proof.
  induction 1 as [|y l Hs IH Hy]; simpl.
  - repeat constructor.
  - destruct (lt y x) eqn:E.
    + constructor; [done|].
      rewrite insert_stable_perm. constructor; [by apply key_lt_le | done].
    + apply key_lt_false_le in E. constructor; [by constructor|].
      constructor; [done|].
      eapply Forall_impl; [exact Hy|]. intros z Hz. by eapply key_le_trans.
Qed.

Lemma py_sorted_sorted l : StronglySorted le (sorted l).
Proof.
  induction l as [|x l IH]; simpl; [constructor|].
  by apply insert_stable_sorted.
Qed.

Lemma insert_stable_filter k x l :
  filter (same k) (insert x l) = filter (same k) (x :: l).
Proof.
  induction l as [|y l IH]; simpl; [done|].
  destruct (lt y x) eqn:E; [|done].
  rewrite (filter_cons _ y), IH, !filter_cons.
  destruct (decide (same k x)) as [Hx|Hx], (decide (same k y)) as [Hy|Hy];
    try done.
  apply Is_true_true in Hx, Hy.
  by rewrite (key_lt_not_same k x y E Hx) in Hy.
Qed.

Lemma py_sorted_filter k l : filter (same k) (sorted l) = filter (same k) l.
Proof.
  induction l as [|x l IH]; simpl; [done|].
  by rewrite insert_stable_filter, !filter_cons, IH.
Qed.

(** The builtin does what a stable sort has to do. *)
Lemma py_sorted_stable_sort l : stable_sort_of cmp key l (sorted l).
Proof.
  split; [apply py_sorted_sorted|].
  split; [apply py_sorted_perm | intros k; apply py_sorted_filter].
Qed.

(** A list that is already in order comes back as it is. *)
Lemma py_sorted_id l : StronglySorted le l -> sorted l = l.
Proof.
  induction 1 as [|x l Hs IH Hx]; simpl; [done|].
  rewrite IH. destruct Hx as [|y l Hy _]; simpl; [done|].
  apply key_lt_false_le in Hy. by rewrite Hy.
Qed.

Lemma py_sorted_idempotent l : sorted (sorted l) = sorted l.
Proof. apply py_sorted_id, py_sorted_sorted. Qed.

Lemma filter_same_head k x l l' :
  filter (same k) l = x :: l' -> x ∈ l /\ key x = k.
Proof.
  intros E. assert (Hin : x ∈ filter (same k) l) by (rewrite E; left).
  apply list_elem_of_filter in Hin as [Hk Hin].
  split; [done|]. by apply same_key_iff, Is_true_true.
Qed.

(** Two ordered lists with the same elements in the same order under
    every key are the same list: the result of a stable sort is
    determined, whatever the algorithm. *)
Lemma stable_sorted_eq l1 l2 :
  StronglySorted le l1 -> StronglySorted le l2 ->
  (forall k, filter (same k) l1 = filter (same k) l2) ->
  l1 = l2.
Proof.
  intros H1. revert l2.
  induction H1 as [|x l1 Hs1 IH Hx]; intros l2 H2 Hf.
  - destruct l2 as [|y l2]; [done|].
    specialize (Hf (key y)). rewrite filter_cons in Hf.
    destruct (decide (same (key y) y)) as [|Hn]; [done|].
    exfalso. apply Hn, Is_true_true, same_key_iff. done.
  - destruct H2 as [|y l2 Hs2 Hy].
    + specialize (Hf (key x)). rewrite filter_cons in Hf.
      destruct (decide (same (key x) x)) as [|Hn]; [done|].
      exfalso. apply Hn, Is_true_true, same_key_iff. done.
    + assert (Hkey : key x = key y).
      { destruct (decide (same (key x) y)) as [Hxy|Hxy].
        { symmetry. by apply same_key_iff, Is_true_true. }
        destruct (decide (same (key y) x)) as [Hyx|Hyx].
        { by apply same_key_iff, Is_true_true. }
        pose proof (Hf (key x)) as Fx. pose proof (Hf (key y)) as Fy.
        rewrite !filter_cons in Fx, Fy.
        destruct (decide (same (key x) x)) as [_|Hn];
          [|exfalso; by apply Hn, Is_true_true, same_key_iff].
        destruct (decide (same (key y) y)) as [_|Hn];
          [|exfalso; by apply Hn, Is_true_true, same_key_iff].
        destruct (decide (same (key x) y)); [done|].
        destruct (decide (same (key y) x)); [done|].
        symmetry in Fx. apply filter_same_head in Fx as [Hx2 _].
        apply filter_same_head in Fy as [Hy1 _].
        rewrite Forall_forall in Hx, Hy.
        apply key_le_antisym; [by apply Hx | by apply Hy]. }
      assert (x = y) as ->.
      { specialize (Hf (key x)). rewrite !filter_cons in Hf.
        destruct (decide (same (key x) x)) as [_|Hn];
          [|exfalso; by apply Hn, Is_true_true, same_key_iff].
        destruct (decide (same (key x) y)) as [_|Hn];
          [|exfalso; by apply Hn, Is_true_true, same_key_iff].
        by inversion Hf. }
      f_equal. apply IH; [done|]. intros k. specialize (Hf k).
      rewrite !filter_cons in Hf.
      destruct (decide (same k y)); [by inversion Hf | done].
Qed.

Lemma py_sorted_unique l out : stable_sort_of cmp key l out -> out = sorted l.
Proof.
  intros (Hs & _ & Hf). apply stable_sorted_eq; [done | apply py_sorted_sorted|].
  intros k. by rewrite Hf, py_sorted_filter.
Qed.
End PySortedFacts.

(** ** Lower-casing of ASCII strings and case-insensitive equality *)

Lemma lower_ascii_char_code c :
  N_of_ascii (lower_ascii_char c)
  = if is_upper c then (N_of_ascii c + 32)%N else N_of_ascii c.
Proof.
  unfold lower_ascii_char, is_upper.
  destruct ((65 <=? N_of_ascii c)%N && (N_of_ascii c <=? 90)%N) eqn:E; [|done].
  apply andb_true_iff in E as [_ E]. apply N.leb_le in E.
  apply N_ascii_embedding. lia.
Qed.

Lemma ascii_code_inj c d : N_of_ascii c = N_of_ascii d -> c = d.
Proof.
  intros E. rewrite <- (ascii_N_embedding c), <- (ascii_N_embedding d).
  by rewrite E.
Qed.

Lemma is_upper_spec c :
  is_upper c = true <-> (65 <= N_of_ascii c /\ N_of_ascii c <= 90)%N.
Proof. unfold is_upper. by rewrite andb_true_iff, !N.leb_le. Qed.

Lemma same_letter_lower c d :
  same_letter c d = true <-> lower_ascii_char c = lower_ascii_char d.
Proof.
  split.
  - intros E. apply ascii_code_inj. rewrite !lower_ascii_char_code.
    unfold same_letter in E. apply orb_true_iff in E as [E|E];
      [apply orb_true_iff in E as [E|E]|].
    + by apply Ascii.eqb_eq in E as ->.
    + apply andb_true_iff in E as [U E]. apply N.eqb_eq in E.
      rewrite U. apply is_upper_spec in U.
      destruct (is_upper d) eqn:V; [apply is_upper_spec in V; lia | done].
    + apply andb_true_iff in E as [U E]. apply N.eqb_eq in E.
      rewrite U. apply is_upper_spec in U.
      destruct (is_upper c) eqn:V; [apply is_upper_spec in V; lia | done].
  - intros E. apply (f_equal N_of_ascii) in E. rewrite !lower_ascii_char_code in E.
    unfold same_letter. destruct (is_upper c) eqn:U, (is_upper d) eqn:V; simpl.
    + assert (c = d) as -> by (apply ascii_code_inj; lia).
      by rewrite Ascii.eqb_refl.
    + rewrite <- E, N.eqb_refl. by rewrite orb_true_r.
    + rewrite E, N.eqb_refl. by rewrite orb_true_r.
    + apply ascii_code_inj in E as ->. by rewrite Ascii.eqb_refl.
Qed.

Lemma eq_ignoring_case_lower s t :
  eq_ignoring_case s t = true <-> lower_ascii s = lower_ascii t.
Proof.
  revert t. induction s as [|c s IH]; intros [|d t]; simpl; try done.
  rewrite andb_true_iff, same_letter_lower, IH. split.
  - by intros [-> ->].
  - by inversion 1.
Qed.

(** ** sorted_metadata *)

Lemma normalized_variable_key_eq {L : PyLower} ks r :
  normalized_variable_key ks r = map (fun k => py_lower (attribute_str r k)) ks.
Proof.
  unfold normalized_variable_key, attribute_str.
  apply map_ext. intros k. by destruct (r !! k).
Qed.

Lemma normalized_variable_key_same {L : PyLower} ks r1 r2 :
  normalized_variable_key ks r1 = normalized_variable_key ks r2
  <-> Forall (fun k => py_lower (attribute_str r1 k)
                       = py_lower (attribute_str r2 k)) ks.
Proof.
  rewrite !normalized_variable_key_eq.
  induction ks as [|k ks IH]; simpl.
  - split; [constructor | done].
  - rewrite Forall_cons, <- IH. split.
    + by inversion 1.
    + by intros [-> ->].
Qed.

(** Where the attributes are ASCII strings, the records with the same
    key are those whose attributes differ in the case of letters only. *)
Lemma normalized_variable_key_ascii {L : PyLower} ks r1 r2 :
  PyLowerAscii L ->
  Forall (fun k => is_ascii (attribute_str r1 k) = true
                   /\ is_ascii (attribute_str r2 k) = true) ks ->
  normalized_variable_key ks r1 = normalized_variable_key ks r2
  <-> Forall (fun k => eq_ignoring_case (attribute_str r1 k) (attribute_str r2 k)
                       = true) ks.
Proof.
  intros HL Hascii. rewrite normalized_variable_key_same.
  induction Hascii as [|k ks [H1 H2] _ IH].
  - split; constructor.
  - rewrite !Forall_cons, IH, eq_ignoring_case_lower.
    by rewrite (py_lower_ascii _ H1), (py_lower_ascii _ H2).
Qed.

Example sorted_metadata_example :
  sorted_metadata (L := lower_ascii)
    [ {[ "dataset" := VStr "b"; "n" := VInt 1 ]};
      {[ "dataset" := VStr "B"; "n" := VInt 2 ]};
      {[ "n" := VInt 3 ]};
      {[ "dataset" := VStr "A"; "n" := VInt 4 ]} ]
    (SortStr "dataset")
  = Ok [ {[ "n" := VInt 3 ]};
         {[ "dataset" := VStr "A"; "n" := VInt 4 ]};
         {[ "dataset" := VStr "b"; "n" := VInt 1 ]};
         {[ "dataset" := VStr "B"; "n" := VInt 2 ]} ].
Proof. reflexivity. Qed.

(** C7: for every metadata list and every list of sort keys,
    [sorted_metadata] returns a stable sort of the list under the tuple
    of the lower-cased string representations of the requested
    attributes, a missing attribute counting as the empty string: the
    result is ordered lexicographically by that key, it is a permutation
    of the input, and for every key value the records with that key come
    in their input order.  Two records have the same key exactly when
    their requested attributes are equal after [str.lower()]; where
    these are ASCII strings, and [str.lower()] lowers the letters [A]
    to [Z] on such strings, that is when they differ in the case of
    letters only.  A single attribute name sorts as the one-element
    list. *)
Theorem sorted_metadata_stable {L : PyLower} (metadata : list record)
    (ks : list string) :
  exists out,
    sorted_metadata metadata (SortKeys ks) = Ok out
    /\ StronglySorted
         (fun r1 r2 => tuple_compare (normalized_variable_key ks r2)
                                     (normalized_variable_key ks r1) <> Lt) out
    /\ out ≡ₚ metadata
    /\ (forall kv,
          filter (same_key tuple_compare (normalized_variable_key ks) kv) out
          = filter (same_key tuple_compare (normalized_variable_key ks) kv)
              metadata)
    /\ (forall r, normalized_variable_key ks r
                  = map (fun k => py_lower (attribute_str r k)) ks)
    /\ (forall r1 r2,
          normalized_variable_key ks r1 = normalized_variable_key ks r2
          <-> Forall (fun k => py_lower (attribute_str r1 k)
                               = py_lower (attribute_str r2 k)) ks)
    /\ (PyLowerAscii L ->
        forall r1 r2,
          Forall (fun k => is_ascii (attribute_str r1 k) = true
                           /\ is_ascii (attribute_str r2 k) = true) ks ->
          normalized_variable_key ks r1 = normalized_variable_key ks r2
          <-> Forall (fun k => eq_ignoring_case (attribute_str r1 k)
                                 (attribute_str r2 k) = true) ks)
    /\ (forall s, sorted_metadata metadata (SortStr s)
                  = sorted_metadata metadata (SortKeys [s])).
Proof.
  eexists. split; [reflexivity|].
  destruct (py_sorted_stable_sort tuple_compare (normalized_variable_key ks)
              metadata) as (Hs & Hp & Hf).
  split; [exact Hs|]. split; [exact Hp|]. split; [exact Hf|].
  split; [apply normalized_variable_key_eq|].
  split; [apply normalized_variable_key_same|].
  split; [|done]. intros HL r1 r2. by apply normalized_variable_key_ascii.
Qed.

(** On ASCII strings [lower_ascii] is a lower-casing function of the
    kind the theorem speaks of. *)
Lemma lower_ascii_PyLowerAscii : PyLowerAscii lower_ascii.
Proof. by intros s _. Qed.

Lemma sorted_metadata_stable_witness :
  exists out,
    sorted_metadata (L := lower_ascii)
      [ {[ "d" := VStr "b" ]}; {[ "d" := VStr "B" ]}; {[ "d" := VStr "A" ]} ]
      (SortKeys ["d"])
    = Ok out
    /\ (normalized_variable_key (L := lower_ascii) ["d"] {[ "d" := VStr "b" ]}
        = normalized_variable_key (L := lower_ascii) ["d"] {[ "d" := VStr "B" ]}).
Proof.
  destruct (sorted_metadata_stable (L := lower_ascii)
              [ {[ "d" := VStr "b" ]}; {[ "d" := VStr "B" ]};
                {[ "d" := VStr "A" ]} ] ["d"])
    as (out & E & _ & _ & _ & _ & _ & H & _).
  exists out. split; [exact E|].
  apply (H lower_ascii_PyLowerAscii).
  - repeat constructor.
  - repeat constructor.
Defined.

(** C8: sorting is idempotent: sorting the output of [sorted_metadata]
    again with the same sort specification gives that output back (and
    a call that raises has no output to sort again). *)
Theorem sorted_metadata_idempotent {L : PyLower} (metadata : list record) (sort : sort_spec) :
  (out ← sorted_metadata metadata sort; sorted_metadata out sort)
  = sorted_metadata metadata sort.
Proof.
  destruct sort as [|b|s|ks]; simpl.
  - by destruct metadata.
  - by destruct metadata.
  - unfold mbind, result_bind; simpl. by rewrite py_sorted_idempotent by apply _.
  - unfold mbind, result_bind; simpl. by rewrite py_sorted_idempotent by apply _.
Qed.

(** ** select_metadata *)

Lemma attribute_matches_ok r a v :
  attribute_matches r (a, v) = true <-> constraint_ok r a v.
Proof.
  unfold attribute_matches, constraint_ok; simpl.
  destruct (r !! a) as [w|]; [|done].
  by rewrite orb_true_iff, py_eq_star.
Qed.

Lemma all_attributes_match attributes r :
  forallb (attribute_matches r) (map_to_list attributes) = true
  <-> satisfies attributes r.
Proof.
  unfold satisfies. rewrite map_Forall_to_list, forallb_forall, Forall_forall.
  split; intros H [a v] Hin.
  - apply attribute_matches_ok, H. by apply list_elem_of_In.
  - apply attribute_matches_ok. apply (H (a, v)). by apply list_elem_of_In.
Qed.

Lemma select_loop attributes metadata selection :
  fold_left
    (fun selection attribs =>
       if forallb (attribute_matches attribs) (map_to_list attributes)
       then selection ++ [attribs] else selection)
    metadata selection
  = selection ++ filter (satisfies attributes) metadata.
Proof.
  revert selection. induction metadata as [|r metadata IH]; intros selection.
  - by rewrite app_nil_r.
  - simpl. rewrite IH, filter_cons.
    destruct (forallb _ _) eqn:E.
    + apply all_attributes_match in E.
      destruct (decide (satisfies attributes r)); [|done].
      by rewrite <- app_assoc.
    + destruct (decide (satisfies attributes r)) as [S|]; [|done].
      apply all_attributes_match in S. congruence.
Qed.

Lemma satisfies_unfold attributes r :
  satisfies attributes r
  <-> forall a v, attributes !! a = Some v ->
        exists w, r !! a = Some w /\ (py_eq w v = true \/ v = VStr "*").
Proof.
  unfold satisfies, map_Forall, constraint_ok.
  split; intros H a v Hav; specialize (H a v Hav).
  - destruct (r !! a) as [w|]; [eauto | done].
  - destruct H as (w & -> & H). done.
Qed.

Example select_metadata_example :
  select_metadata
    [ {[ "var" := VStr "tas"; "exp" := VStr "ssp" ]};
      {[ "var" := VStr "tas"; "exp" := VStr "hist" ]};
      {[ "var" := VStr "pr" ]} ]
    {[ "var" := VStr "tas"; "exp" := VStr "*" ]}
  = [ {[ "var" := VStr "tas"; "exp" := VStr "ssp" ]};
      {[ "var" := VStr "tas"; "exp" := VStr "hist" ]} ].
Proof. reflexivity. Qed.

(** C1: for every metadata list and every set of attribute constraints,
    [select_metadata] returns exactly the records, in their order, in
    which every constrained attribute is present and has a value equal
    to the required one, or is required with the wildcard ['*']: a
    record is in the result if and only if it is in the list and
    satisfies every constraint; a wildcard constraint is met by exactly
    the records that have the attribute; without constraints the whole
    list is returned. *)
Theorem select_metadata_spec (metadata : list record) (attributes : record) :
  select_metadata metadata attributes = filter (satisfies attributes) metadata
  /\ (forall r,
        satisfies attributes r
        <-> forall a v, attributes !! a = Some v ->
              exists w, r !! a = Some w
                        /\ (py_eq w v = true \/ v = VStr "*"))
  /\ (forall r,
        r ∈ select_metadata metadata attributes
        <-> r ∈ metadata /\ satisfies attributes r)
  /\ (forall r a, constraint_ok r a (VStr "*") <-> is_Some (r !! a))
  /\ select_metadata metadata ∅ = metadata.
Proof.
  assert (E : forall attrs, select_metadata metadata attrs
                            = filter (satisfies attrs) metadata).
  { intros attrs. unfold select_metadata. by rewrite select_loop. }
  split; [apply E|]. split; [apply satisfies_unfold|].
  split; [|split].
  - intros r. rewrite E, list_elem_of_filter. tauto.
  - intros r a. unfold constraint_ok. destruct (r !! a) as [w|].
    + split; [eauto | auto].
    + split; [done | by intros [? ?]].
  - rewrite E. induction metadata as [|r l IH]; [done|].
    rewrite filter_cons.
    destruct (decide (satisfies ∅ r)) as [|N].
    + f_equal. apply IH. intros attrs. unfold select_metadata.
      by rewrite select_loop.
    + exfalso. apply N. apply map_Forall_empty.
Qed.

(** ** Insertion-ordered dictionaries *)

Lemma filter_bool_cons {A} (p : A -> bool) x l :
  filter p (x :: l) = if p x then x :: filter p l else filter p l.
Proof.
  rewrite filter_cons. by destruct (p x) eqn:E, (decide (p x)) as [H|H].
Qed.

Lemma filter_bool_app {A} (p : A -> bool) l1 l2 :
  filter p (l1 ++ l2) = filter p l1 ++ filter p l2.
Proof. apply filter_app. Qed.

Lemma key_mem_app k ks1 ks2 : key_mem k (ks1 ++ ks2) = key_mem k ks1 || key_mem k ks2.
Proof. apply existsb_app. Qed.

Lemma key_mem_false k ks :
  key_mem k ks = false <-> forall k', k' ∈ ks -> py_eq k' k = false.
Proof.
  unfold key_mem. induction ks as [|a ks IH]; simpl.
  - split; [intros _ k' H; by apply not_elem_of_nil in H | done].
  - rewrite orb_false_iff, IH. split.
    + intros [Ha H] k' Hin. apply elem_of_cons in Hin as [->|Hin]; auto.
    + intros H. split; [apply H; left | intros k' Hin; apply H; by right].
Qed.

Lemma key_mem_true k ks :
  key_mem k ks = true <-> exists k', k' ∈ ks /\ py_eq k' k = true.
Proof.
  unfold key_mem. rewrite existsb_exists. split; intros (k' & Hin & E);
    exists k'; (split; [by apply list_elem_of_In | done]).
Qed.

Lemma key_mem_congr k1 k2 ks :
  py_eq k1 k2 = true -> key_mem k1 ks = key_mem k2 ks.
Proof.
  intros E. unfold key_mem. induction ks as [|a ks IH]; simpl; [done|].
  rewrite IH. f_equal. rewrite (py_eq_sym a k1), (py_eq_sym a k2).
  by apply py_eq_congr_l.
Qed.

Lemma dict_mem_keys {V} k (d : odict V) : dict_mem k d = key_mem k (map fst d).
Proof.
  unfold dict_mem, key_mem. induction d as [|[k' v] d IH]; simpl; [done|].
  by rewrite IH.
Qed.

Lemma keys_wf_app ks1 ks2 :
  keys_wf (ks1 ++ ks2)
  <-> keys_wf ks1 /\ keys_wf ks2
      /\ forall k1 k2, k1 ∈ ks1 -> k2 ∈ ks2 -> py_eq k1 k2 = false.
Proof.
  induction ks1 as [|a ks1 IH]; simpl.
  - split; [intros H0; repeat split; [done|] | tauto].
    intros k1 k2 H. by apply not_elem_of_nil in H.
  - rewrite key_mem_app, orb_false_iff, IH, !key_mem_false. split.
    + intros ((Ha1 & Ha2) & H1 & H2 & H). repeat split; try done.
      intros k1 k2 Hin1 Hin2. apply elem_of_cons in Hin1 as [->|Hin1]; [|auto].
      rewrite py_eq_sym. auto.
    + intros ((Ha1 & H1) & H2 & H). repeat split; try done.
      * intros k' Hin. rewrite py_eq_sym. apply H; [left | done].
      * intros k1 k2 Hin1 Hin2. apply H; [by right | done].
Qed.

Lemma dict_set_new {V} k (v : V) d :
  dict_mem k d = false -> dict_set k v d = d ++ [(k, v)].
Proof.
  unfold dict_mem. induction d as [|[k' v'] d IH]; simpl; [done|].
  intros E. apply orb_false_iff in E as [E1 E2]. rewrite E1. by rewrite IH.
Qed.

Lemma dict_alter_map {V} (f : V -> V) k d :
  dict_wf d ->
  dict_alter f k d
  = map (fun kv => (kv.1, if py_eq kv.1 k then f kv.2 else kv.2)) d.
Proof.
  unfold dict_wf. induction d as [|[k' v'] d IH]; simpl; [done|].
  intros [Hk Hd]. destruct (py_eq k' k) eqn:E.
  - f_equal. rewrite <- (map_id d) at 1. apply map_ext_in.
    intros [k2 v2] Hin; simpl.
    rewrite key_mem_false in Hk.
    assert (F : py_eq k2 k' = false).
    { apply Hk. apply list_elem_of_In in Hin.
      by apply (list_elem_of_fmap_2 fst) in Hin. }
    rewrite py_eq_sym in F. rewrite (py_eq_congr_l _ _ _ E) in F.
    rewrite py_eq_sym in F. by rewrite F.
  - by rewrite IH.
Qed.

Lemma dict_get_wf {V} k (v : V) d :
  dict_wf d -> (k, v) ∈ d -> dict_get k d = Some v.
Proof.
  unfold dict_wf. induction d as [|[k' v'] d IH]; simpl.
  - intros _ H. by apply not_elem_of_nil in H.
  - intros [Hk Hd] Hin. apply elem_of_cons in Hin as [E|Hin].
    + inversion E; subst. by rewrite py_eq_refl.
    + destruct (py_eq k' k) eqn:E; [|by apply IH].
      rewrite key_mem_false in Hk. rewrite py_eq_sym in E.
      rewrite (Hk k) in E; [done|].
      by apply (list_elem_of_fmap_2 fst) in Hin.
Qed.

(** ** The distinct keys in order of first occurrence *)

Lemma key_mem_filter k (q : pyval -> bool) ks :
  (forall k', py_eq k' k = true -> q k' = true) ->
  key_mem k (filter q ks) = key_mem k ks.
Proof.
  intros H. unfold key_mem. induction ks as [|a ks IH]; [done|].
  rewrite filter_bool_cons. simpl. destruct (q a) eqn:Q; simpl.
  - by rewrite IH.
  - rewrite IH. destruct (py_eq a k) eqn:E; [|done].
    apply H in E. congruence.
Qed.

Lemma key_mem_filter_false k (q : pyval -> bool) ks :
  key_mem k ks = false -> key_mem k (filter q ks) = false.
Proof.
  rewrite !key_mem_false. intros H k' Hin.
  apply list_elem_of_filter in Hin as [_ Hin]. auto.
Qed.

Lemma keys_wf_filter (q : pyval -> bool) ks : keys_wf ks -> keys_wf (filter q ks).
Proof.
  induction ks as [|a ks IH]; [done|]. intros [Ha Hks].
  rewrite filter_bool_cons. destruct (q a); simpl; [|auto].
  split; [by apply key_mem_filter_false | auto].
Qed.

Lemma first_keys_mem k ks : key_mem k (first_keys ks) = key_mem k ks.
Proof.
  induction ks as [|a ks IH]; [done|].
  cbn [first_keys]. unfold key_mem in *. simpl.
  destruct (py_eq a k) eqn:E; [done|]. simpl.
  rewrite <- IH. apply key_mem_filter.
  intros k' F. destruct (py_eq a k') eqn:G; [|done].
  by rewrite (py_eq_trans _ _ _ G F) in E.
Qed.

Lemma first_keys_wf ks : keys_wf (first_keys ks).
Proof.
  induction ks as [|a ks IH]; [done|]. cbn [first_keys keys_wf]. split.
  - apply key_mem_false. intros k' Hin.
    apply list_elem_of_filter in Hin as [Hq _].
    rewrite py_eq_sym. by destruct (py_eq a k').
  - by apply keys_wf_filter.
Qed.

Lemma first_keys_snoc ks k :
  first_keys (ks ++ [k])
  = first_keys ks ++ (if key_mem k ks then [] else [k]).
Proof.
  induction ks as [|a ks IH]; [done|].
  cbn [app first_keys]. rewrite IH, filter_bool_app. f_equal. f_equal.
  unfold key_mem; simpl. fold (key_mem k ks).
  destruct (key_mem k ks); simpl.
  - by rewrite orb_true_r.
  - rewrite orb_false_r, filter_bool_cons. by destruct (py_eq a k).
Qed.

(** ** group_metadata *)

(** The groups of a list in closed form: one group per distinct key, in
    order of first occurrence, holding the records under that key. *)
Lemma members_of_snoc attribute k l x :
  members_of attribute k (l ++ [x])
  = members_of attribute k l
    ++ (if py_eq k (group_key attribute x) then [x] else []).
Proof.
  unfold members_of. rewrite filter_bool_app, filter_bool_cons.
  by destruct (py_eq k (group_key attribute x)).
Qed.

Lemma members_of_nil attribute k l :
  key_mem k (map (group_key attribute) l) = false ->
  members_of attribute k l = [].
Proof.
  unfold members_of. induction l as [|r l IH]; [done|].
  unfold key_mem in *. simpl. intros E.
  apply orb_false_iff in E as [E1 E2]. rewrite filter_bool_cons.
  rewrite py_eq_sym, E1. auto.
Qed.

Lemma group_loop attribute metadata :
  fold_left (group_step attribute) metadata []
  = map (fun k => (k, members_of attribute k metadata))
        (first_keys (map (group_key attribute) metadata)).
Proof.
  induction metadata as [|x l IH] using rev_ind; [done|].
  rewrite fold_left_app. cbn [fold_left]. rewrite IH. clear IH.
  set (gk := group_key attribute). set (ks := map gk l).
  unfold group_step. change (default VNone (x !! attribute)) with (gk x).
  rewrite map_app. cbn [map]. fold ks. rewrite first_keys_snoc.
  rewrite dict_mem_keys, map_map. cbn [fst]. rewrite map_id, first_keys_mem.
  assert (Hwf : keys_wf (first_keys ks ++ if key_mem (gk x) ks then [] else [gk x])).
  { rewrite <- first_keys_snoc. apply first_keys_wf. }
  destruct (key_mem (gk x) ks) eqn:M; cbn [negb].
  - rewrite app_nil_r in *. rewrite dict_alter_map.
    + rewrite map_map. apply map_ext. intros k; cbn [fst snd].
      rewrite members_of_snoc. fold (gk x).
      destruct (py_eq k (gk x)); [done | by rewrite app_nil_r].
    + unfold dict_wf. rewrite map_map. cbn [fst]. by rewrite map_id.
  - rewrite dict_set_new.
    2:{ rewrite dict_mem_keys, map_map. cbn [fst].
        by rewrite map_id, first_keys_mem. }
    rewrite dict_alter_map.
    2:{ unfold dict_wf. rewrite map_app, map_map. cbn [fst map].
        by rewrite map_id. }
    rewrite !map_app, map_map. cbn [map fst snd]. f_equal.
    + apply map_ext_in. intros k Hin.
      rewrite members_of_snoc. fold (gk x).
      assert (E : py_eq k (gk x) = false).
      { rewrite <- first_keys_mem in M. rewrite key_mem_false in M.
        apply M. by apply list_elem_of_In. }
      by rewrite E, app_nil_r.
    + rewrite py_eq_refl, members_of_snoc. fold (gk x).
      rewrite py_eq_refl, members_of_nil; [done|]. exact M.
Qed.

Lemma dict_alter_append_perm k (x : record) (d : odict (list record)) :
  dict_mem k d = true ->
  concat (map snd (dict_alter (fun members => members ++ [x]) k d))
  ≡ₚ x :: concat (map snd d).
Proof.
  unfold dict_mem. induction d as [|[k' v'] d IH]; simpl; [done|].
  destruct (py_eq k' k); simpl; intros E.
  - rewrite <- app_assoc. simpl. symmetry. apply Permutation_middle.
  - rewrite (IH E). symmetry. apply Permutation_middle.
Qed.

Lemma group_step_perm attribute groups x :
  concat (map snd (group_step attribute groups x))
  ≡ₚ x :: concat (map snd groups).
Proof.
  unfold group_step. set (k := default VNone (x !! attribute)).
  destruct (dict_mem k groups) eqn:M; cbn [negb].
  - by apply dict_alter_append_perm.
  - rewrite dict_set_new by done. rewrite dict_alter_append_perm.
    + by rewrite map_app, concat_app, app_nil_r.
    + unfold dict_mem. rewrite existsb_app. simpl.
      by rewrite py_eq_refl, orb_true_r.
Qed.

Lemma group_loop_perm attribute metadata groups :
  concat (map snd (fold_left (group_step attribute) metadata groups))
  ≡ₚ concat (map snd groups) ++ metadata.
Proof.
  revert groups. induction metadata as [|x l IH]; intros groups; simpl.
  - by rewrite app_nil_r.
  - rewrite IH, group_step_perm. simpl. apply Permutation_middle.
Qed.

Lemma group_key_member attribute k r :
  py_eq k (group_key attribute r) = true ->
  (exists v, r !! attribute = Some v /\ py_eq v k = true)
  \/ (k = VNone /\ r !! attribute = None).
Proof.
  unfold group_key. destruct (r !! attribute) as [v|]; simpl; intros E.
  - left. exists v. by rewrite py_eq_sym.
  - right. by destruct k.
Qed.

Example group_metadata_example :
  group_metadata (L := lower_ascii)
    [ {[ "var" := VStr "tas"; "exp" := VStr "ssp" ]};
      {[ "var" := VStr "pr" ]};
      {[ "var" := VStr "tas"; "exp" := VStr "hist" ]};
      {[ "var" := VStr "ua"; "exp" := VStr "ssp" ]} ]
    "exp" SortNone
  = Ok [ (VStr "ssp", [ {[ "var" := VStr "tas"; "exp" := VStr "ssp" ]};
                        {[ "var" := VStr "ua"; "exp" := VStr "ssp" ]} ]);
         (VNone, [ {[ "var" := VStr "pr" ]} ]);
         (VStr "hist", [ {[ "var" := VStr "tas"; "exp" := VStr "hist" ]} ]) ].
Proof. reflexivity. Qed.

(** C2: for every metadata list and attribute name, [group_metadata]
    without sorting returns a mapping whose member lists together are a
    rearrangement of the original list; every member of a group has the
    grouping attribute equal to the key of the group, or lacks it when
    the key is [None]; the keys are the distinct values in the order in
    which they first occur, each held once, and the members of a group
    are the records under its key in the order of the list. *)
Theorem group_metadata_spec {L : PyLower} (metadata : list record) (attribute : string) :
  exists groups,
    group_metadata metadata attribute SortNone = Ok groups
    /\ concat (map snd groups) ≡ₚ metadata
    /\ (forall k members r,
          (k, members) ∈ groups -> r ∈ members ->
          (exists v, r !! attribute = Some v /\ py_eq v k = true)
          \/ (k = VNone /\ r !! attribute = None))
    /\ dict_wf groups
    /\ map fst groups = first_keys (map (group_key attribute) metadata)
    /\ (forall k members,
          (k, members) ∈ groups ->
          members = members_of attribute k metadata /\ members <> []).
Proof.
  eexists. split; [reflexivity|].
  assert (Hmem : forall k members,
             (k, members)
               ∈ fold_left (group_step attribute) metadata [] ->
             members = members_of attribute k metadata
             /\ key_mem k (map (group_key attribute) metadata) = true).
  { intros k members Hin. rewrite group_loop in Hin.
    apply list_elem_of_fmap in Hin as (k' & E & Hin). inversion E; subst.
    split; [done|]. rewrite <- first_keys_mem. apply key_mem_true.
    exists k'. by rewrite py_eq_refl. }
  split; [|split; [|split; [|split]]].
  - by rewrite group_loop_perm.
  - intros k members r Hin Hr. apply Hmem in Hin as [-> _].
    apply list_elem_of_filter in Hr as [Hr _].
    apply group_key_member. by apply Is_true_true.
  - unfold dict_wf. rewrite group_loop, map_map. cbn [fst].
    rewrite map_id. apply first_keys_wf.
  - rewrite group_loop, map_map. cbn [fst]. by rewrite map_id.
  - intros k members Hin. apply Hmem in Hin as [-> M]. split; [done|].
    apply key_mem_true in M as (k' & Hin & E).
    apply list_elem_of_fmap in Hin as (r & -> & Hr).
    intros N. assert (Hr' : r ∈ members_of attribute k metadata).
    { apply list_elem_of_filter. split; [|done].
      apply Is_true_true. by rewrite py_eq_sym. }
    rewrite N in Hr'. by apply not_elem_of_nil in Hr'.
Qed.

(** ** sorted_group_metadata *)

Section PySortedMap.
Context {A B K : Type} (cmp : K -> K -> comparison) (key : B -> K) (f : A -> B).

Lemma insert_stable_map x l :
  insert_stable cmp key (f x) (map f l)
  = map f (insert_stable cmp (fun a => key (f a)) x l).
Proof.
  induction l as [|y l IH]; simpl; [done|].
  unfold key_lt. destruct (cmp (key (f y)) (key (f x))); simpl;
    by rewrite ?IH.
Qed.

Lemma py_sorted_map l :
  py_sorted cmp key (map f l) = map f (py_sorted cmp (fun a => key (f a)) l).
Proof.
  induction l as [|x l IH]; simpl; [done|].
  by rewrite IH, insert_stable_map.
Qed.
End PySortedMap.

Lemma py_sorted_const {A K} (cmp : K -> K -> comparison) `{!CmpLaws cmp}
    (key : A -> K) l :
  (forall a b, key a = key b) -> py_sorted cmp key l = l.
Proof.
  intros H. apply py_sorted_id; [done..|].
  assert (R : forall a b, key_le cmp key a b).
  { intros a b. unfold key_le. by rewrite (H b a), cmp_refl. }
  induction l as [|x l IH]; constructor; [done|].
  apply Forall_forall. auto.
Qed.

Lemma key_mem_perm k ks ks' : ks ≡ₚ ks' -> key_mem k ks = key_mem k ks'.
Proof.
  intros P. destruct (key_mem k ks') eqn:E.
  - apply key_mem_true in E as (k' & Hin & E). apply key_mem_true.
    exists k'. by rewrite P.
  - rewrite key_mem_false in E. apply key_mem_false.
    intros k' Hin. apply E. by rewrite <- P.
Qed.

Lemma keys_wf_perm ks ks' : ks ≡ₚ ks' -> keys_wf ks -> keys_wf ks'.
Proof.
  induction 1 as [|x l l' P IH|x y l|l1 l2 l3 P1 IH1 P2 IH2]; simpl.
  - done.
  - intros [Hx Hl]. split; [by rewrite <- (key_mem_perm x l l') | auto].
  - unfold key_mem; simpl. intros [Hy [Hx Hl]].
    apply orb_false_iff in Hy as [Hxy Hy].
    repeat split; try done.
    apply orb_false_iff. split; [by rewrite py_eq_sym | done].
  - auto.
Qed.

Lemma keys_wf_snoc_mem {V} (done rest : odict V) k v :
  dict_wf (done ++ (k, v) :: rest) -> dict_mem k done = false.
Proof.
  unfold dict_wf. rewrite map_app. intros H.
  apply keys_wf_app in H as (_ & _ & H).
  rewrite dict_mem_keys. apply key_mem_false. intros k' Hin.
  apply H; [done | left].
Qed.

Lemma sorted_group_step_ok {L : PyLower} metadata_groups sort groups k members members' :
  dict_get k metadata_groups = Some members ->
  sorted_metadata members sort = Ok members' ->
  sorted_group_step metadata_groups sort groups k
  = Ok (dict_set k members' groups).
Proof. unfold sorted_group_step. by intros -> ->. Qed.

Lemma sorted_group_loop {L : PyLower} (metadata_groups : odict (list record)) sort
    (g : list record -> list record) :
  (forall members, sorted_metadata members sort = Ok (g members)) ->
  forall rest done,
    dict_wf (done ++ rest) ->
    (forall kv, kv ∈ rest -> dict_get kv.1 metadata_groups = Some kv.2) ->
    for_each (sorted_group_step metadata_groups sort) (map fst rest)
      (map (fun kv => (kv.1, g kv.2)) done)
    = Ok (map (fun kv => (kv.1, g kv.2)) (done ++ rest)).
Proof.
  intros Hsort. induction rest as [|[k ms] rest IH]; intros done Hwf Hget.
  - by rewrite app_nil_r.
  - cbn [map for_each fst].
    pose proof (Hget (k, ms) ltac:(left)) as Hk. cbn [fst snd] in Hk.
    rewrite (sorted_group_step_ok _ _ _ _ _ _ Hk (Hsort ms)).
    unfold mbind at 1, result_bind at 1. cbn [rbind].
    rewrite dict_set_new.
    2:{ rewrite dict_mem_keys, map_map. cbn [fst].
        rewrite <- dict_mem_keys. by eapply keys_wf_snoc_mem. }
    replace (map (fun kv => (kv.1, g kv.2)) done ++ [(k, g ms)])
      with (map (fun kv : pyval * list record => (kv.1, g kv.2))
              (done ++ [(k, ms)]))
      by (by rewrite map_app).
    rewrite IH.
    + by rewrite <- app_assoc.
    + by rewrite <- app_assoc.
    + intros kv Hin. apply Hget. by right.
Qed.

(** What [sorted_group_metadata] does to a member list. *)
Lemma sorted_members_ok {L : PyLower} sort :
  sort_given sort = true ->
  exists g,
    (forall members,
       sorted_metadata members
         (match sort with SortBool true => SortKeys [] | _ => sort end)
       = Ok (g members))
    /\ (forall members,
          match sort with
          | SortBool true => g members = members
          | _ => sorted_metadata members sort = Ok (g members)
          end).
Proof.
  destruct sort as [|[]|s|ks]; try done; intros _.
  - exists (py_sorted tuple_compare (normalized_variable_key [])).
    split; [done|]. intros members.
    by apply py_sorted_const; [apply _|].
  - eexists. split; [done|]. by intros members.
  - eexists. split; [done|]. by intros members.
Qed.

Example sorted_group_metadata_example :
  sorted_group_metadata (L := lower_ascii)
    [ (VStr "b", [ {[ "n" := VInt 2 ]}; {[ "n" := VInt 1 ]} ]);
      (VNone, [ {[ "n" := VInt 4 ]}; {[ "n" := VInt 3 ]} ]);
      (VStr "A", []) ]
    (SortBool true)
  = Ok [ (VNone, [ {[ "n" := VInt 4 ]}; {[ "n" := VInt 3 ]} ]);
         (VStr "A", []);
         (VStr "b", [ {[ "n" := VInt 2 ]}; {[ "n" := VInt 1 ]} ]) ].
Proof. reflexivity. Qed.

Lemma sorted_group_metadata_closed {L : PyLower} metadata_groups sort g :
  dict_wf metadata_groups ->
  (forall members,
     sorted_metadata members
       (match sort with SortBool true => SortKeys [] | _ => sort end)
     = Ok (g members)) ->
  sorted_group_metadata metadata_groups sort
  = Ok (map (fun kv => (kv.1, g kv.2))
          (py_sorted str_compare (fun kv => normalized_group_key kv.1)
             metadata_groups)).
Proof.
  intros Hwf Hg. unfold sorted_group_metadata.
  rewrite (py_sorted_map str_compare normalized_group_key fst).
  set (sg := py_sorted _ _ metadata_groups).
  assert (P : sg ≡ₚ metadata_groups) by (apply py_sorted_perm).
  apply (sorted_group_loop metadata_groups _ g Hg sg []).
  - simpl. unfold dict_wf in *. eapply keys_wf_perm; [|exact Hwf].
    symmetry. by apply Permutation_map.
  - intros [k ms] Hin. apply dict_get_wf; [done|]. by rewrite <- P.
Qed.

(** C6: for every group mapping (a dictionary, so with each key once)
    and every sort specification that is [True], an attribute name or a
    list of names, [sorted_group_metadata] returns the groups ordered by
    the lower-cased string of their keys, [None] counting as the empty
    string, keys that compare equal keeping their order; every group is
    kept under its key, its member list sorted by [sorted_metadata]
    under the given keys, or left in its order when the specification
    is [True]. *)
Theorem sorted_group_metadata_spec {L : PyLower}
    (metadata_groups : odict (list record)) (sort : sort_spec) :
  dict_wf metadata_groups ->
  sort_given sort = true ->
  exists groups,
    sorted_group_metadata metadata_groups sort = Ok groups
    /\ StronglySorted
         (fun k1 k2 => str_compare (normalized_group_key k2)
                                   (normalized_group_key k1) <> Lt)
         (map fst groups)
    /\ map fst groups ≡ₚ map fst metadata_groups
    /\ (forall s,
          filter (same_key str_compare normalized_group_key s) (map fst groups)
          = filter (same_key str_compare normalized_group_key s)
              (map fst metadata_groups))
    /\ normalized_group_key VNone = ""
    /\ (forall k, k <> VNone -> normalized_group_key k = py_lower (py_str k))
    /\ length groups = length metadata_groups
    /\ (forall k members,
          (k, members) ∈ metadata_groups ->
          exists members',
            (k, members') ∈ groups
            /\ match sort with
               | SortBool true => members' = members
               | _ => sorted_metadata members sort = Ok members'
               end).
Proof.
  intros Hwf Hsort.
  destruct (sorted_members_ok sort Hsort) as (g & Hg & Hmembers).
  eexists. split; [by apply sorted_group_metadata_closed|].
  set (sg := py_sorted _ _ metadata_groups).
  assert (P : sg ≡ₚ metadata_groups) by (apply py_sorted_perm).
  assert (K : map fst (map (fun kv : pyval * list record => (kv.1, g kv.2)) sg)
              = py_sorted str_compare normalized_group_key
                  (map fst metadata_groups)).
  { rewrite map_map. cbn [fst]. unfold sg.
    by rewrite (py_sorted_map str_compare normalized_group_key fst). }
  rewrite K.
  destruct (py_sorted_stable_sort str_compare normalized_group_key
              (map fst metadata_groups)) as (Hs & Hp & Hf).
  split; [exact Hs|]. split; [exact Hp|]. split; [exact Hf|].
  split; [done|]. split; [by intros []|].
  split; [by rewrite length_map, P|].
  intros k members Hin. exists (g members). split.
  - apply (list_elem_of_fmap_2 (fun kv : pyval * list record => (kv.1, g kv.2))
             sg (k, members)). by rewrite P.
  - specialize (Hmembers members). by destruct sort as [|[]|s|ks].
Qed.

Lemma sorted_group_metadata_spec_witness :
  exists groups,
    sorted_group_metadata (L := lower_ascii)
      [ (VStr "b", [ ({[ "n" := VStr "y" ]} : record); {[ "n" := VStr "X" ]} ]);
        (VNone, [ {[ "n" := VStr "z" ]} ]) ]
      (SortStr "n")
    = Ok groups
    /\ (VStr "b", [ ({[ "n" := VStr "X" ]} : record); {[ "n" := VStr "y" ]} ])
       ∈ groups.
Proof.
  destruct (sorted_group_metadata_spec (L := lower_ascii)
              [ (VStr "b", [ ({[ "n" := VStr "y" ]} : record);
                             {[ "n" := VStr "X" ]} ]);
                (VNone, [ {[ "n" := VStr "z" ]} ]) ]
              (SortStr "n"))
    as (groups & E & _ & _ & _ & _ & _ & _ & H).
  - vm_compute. tauto.
  - reflexivity.
  - exists groups. split; [exact E|].
    destruct (H (VStr "b") [ {[ "n" := VStr "y" ]}; {[ "n" := VStr "X" ]} ])
      as (members' & Hin & Hm).
    + left.
    + vm_compute in Hm. by inversion Hm; subst.
Defined.

(** ** ProvenanceLogger.log *)

Lemma log_new self filename rec t :
  table self = TDict t -> t !! filename = None ->
  log filename rec self
  = (Ok tt, Logger (_log_file self) (TDict (<[filename := rec]> t))).
Proof.
  intros Ht Hf. unfold log. rewrite Ht.
  rewrite bool_decide_eq_false_2; [done|]. rewrite Hf. by intros [? ?].
Qed.

Lemma log_present self filename rec t :
  table self = TDict t -> is_Some (t !! filename) ->
  log filename rec self
  = (Raise (KeyError ("Provenance record for " +:+ filename
                      +:+ " already exists.")), self).
Proof.
  intros Ht Hf. unfold log. rewrite Ht. by rewrite bool_decide_eq_true_2.
Qed.

Lemma log_ok_inv self filename rec self' :
  log filename rec self = (Ok tt, self') ->
  exists t, table self = TDict t /\ t !! filename = None
            /\ self' = Logger (_log_file self) (TDict (<[filename := rec]> t)).
Proof.
  unfold log. destruct (table self) as [|t]; [done|].
  destruct (bool_decide (is_Some (t !! filename))) eqn:E; [done|].
  intros H. inversion H; subst. exists t. repeat split.
  apply bool_decide_eq_false in E. by apply eq_None_not_Some.
Qed.

Lemma log_raise_inv self filename rec e self' :
  log filename rec self = (Raise e, self') -> self' = self.
Proof.
  unfold log. destruct (table self) as [|t]; [by inversion 1|].
  destruct (bool_decide (is_Some (t !! filename))); by inversion 1.
Qed.

(** An entry of the table stays where it is, whatever is logged. *)
Lemma log_preserves self filename rec t f r :
  table self = TDict t -> t !! f = Some r ->
  exists t', table (log filename rec self).2 = TDict t' /\ t' !! f = Some r.
Proof.
  intros Ht Hf. unfold log. rewrite Ht.
  destruct (bool_decide (is_Some (t !! filename))) eqn:E; simpl.
  - eauto.
  - eexists. split; [done|]. apply bool_decide_eq_false in E.
    rewrite lookup_insert_ne; [done|]. intros ->. apply E. eauto.
Qed.

Lemma run_body_preserves body self t f r :
  table self = TDict t -> t !! f = Some r ->
  exists t', table (run_body body self).2 = TDict t' /\ t' !! f = Some r.
Proof.
  revert self t. induction body as [|[f' r'|f' r'|e] body IH];
    intros self t Ht Hf; simpl.
  - eauto.
  - destruct (log_preserves self f' r' t f r Ht Hf) as (t' & Ht' & Hf').
    destruct (log f' r' self) as [[[]|e] self1]; simpl in *; eauto.
  - destruct (log_preserves self f' r' t f r Ht Hf) as (t' & Ht' & Hf').
    eauto.
  - eauto.
Qed.

(** Every entry logged with success is in the table when the body ends,
    however it ends. *)
Lemma run_body_logged body self f r :
  (f, r) ∈ successfully_logged body self ->
  exists t, table (run_body body self).2 = TDict t /\ t !! f = Some r.
Proof.
  revert self. induction body as [|[f' r'|f' r'|e] body IH]; intros self; simpl.
  - intros H. by apply not_elem_of_nil in H.
  - destruct (log f' r' self) as [[[]|e] self1] eqn:E.
    + intros H. apply elem_of_cons in H as [H|H]; [|by apply IH].
      inversion H; subst. apply log_ok_inv in E as (t & _ & _ & ->).
      eapply run_body_preserves; [done|]. apply lookup_insert_eq.
    + intros H. by apply not_elem_of_nil in H.
  - destruct (log f' r' self) as [[[]|e] self1] eqn:E; simpl.
    + intros H. apply elem_of_cons in H as [H|H]; [|by apply IH].
      inversion H; subst. apply log_ok_inv in E as (t & _ & _ & ->).
      eapply run_body_preserves; [done|]. apply lookup_insert_eq.
    + by apply IH.
  - intros H. by apply not_elem_of_nil in H.
Qed.



(** C10: [log] is atomic on error: a call that raises leaves the object
    as it was; for a filename that is in the table the call raises
    [KeyError], the record stored for it is not replaced and no entry
    is added. *)
Theorem ProvenanceLogger_log_atomic (self : ProvenanceLogger)
    (filename : string) (rec : prov_record) :
  (forall e self', log filename rec self = (Raise e, self') -> self' = self)
  /\ (forall t old, table self = TDict t -> t !! filename = Some old ->
        exists msg,
          log filename rec self = (Raise (KeyError msg), self)
          /\ table (log filename rec self).2 = TDict t).
Proof.
  split.
  - intros e self'. apply log_raise_inv.
  - intros t old Ht Hf. eexists. rewrite (log_present _ _ _ t); eauto.
Qed.

Lemma ProvenanceLogger_log_atomic_witness :
  exists msg,
    log "out.nc" ∅
      (Logger ["work"] (TDict {[ "out.nc" := {[ "caption" := PStr "a" ]} ]}))
    = (Raise (KeyError msg),
       Logger ["work"] (TDict {[ "out.nc" := {[ "caption" := PStr "a" ]} ]})).
Proof.
  destruct (ProvenanceLogger_log_atomic
              (Logger ["work"]
                 (TDict {[ "out.nc" := {[ "caption" := PStr "a" ]} ]}))
              "out.nc" ∅) as [_ H].
  destruct (H {[ "out.nc" := {[ "caption" := PStr "a" ]} ]}
              {[ "caption" := PStr "a" ]}) as (msg & E & _).
  - reflexivity.
  - vm_compute. reflexivity.
  - by exists msg.
Defined.

(** ** The file system operations *)

Lemma extends_refl w : extends w w.
Proof. split; [done|]. exists []. by rewrite app_nil_r. Qed.

Lemma extends_trans w1 w2 w3 : extends w1 w2 -> extends w2 w3 -> extends w1 w3.
Proof.
  intros [F1 [m1 L1]] [F2 [m2 L2]]. split; [by etrans|].
  exists (m1 ++ m2). by rewrite L2, L1, app_assoc.
Qed.

Lemma extends_exists w w' p :
  extends w w' -> exists_in w p = true -> exists_in w' p = true.
Proof.
  intros [F _]. unfold exists_in. rewrite !bool_decide_eq_true.
  destruct p as [|c p]; [done|]. simpl. intros [n Hn].
  exists n. by eapply lookup_weaken.
Qed.

Lemma io_bind_unfold {A B} (m : io A) (k : A -> io B) w :
  (m ≫= k) w
  = match m w with
    | (Ok a, w') => k a w'
    | (Raise e, w') => (Raise e, w')
    end.
Proof. done. Qed.

Lemma os_path_exists_eq p w : os_path_exists p w = (Ok (exists_in w p), w).
Proof. done. Qed.

Lemma os_mkdir_extends p w : extends w (os_mkdir p w).2.
Proof.
  unfold os_mkdir. destruct (node_at (files w) p) eqn:E; [apply extends_refl|].
  destruct (node_at (files w) (dirname p)) as [[|doc]|];
    try apply extends_refl.
  split; simpl; [|exists []; by rewrite app_nil_r].
  apply insert_subseteq. by destruct p.
Qed.

Lemma os_mkdir_exists p w :
  exists_in w p = true -> os_mkdir p w = (Raise (FileExistsError p), w).
Proof.
  unfold exists_in, os_mkdir. rewrite bool_decide_eq_true. by intros [n ->].
Qed.

Lemma makedirs_rev_extends rp w : extends w (makedirs_rev rp w).2.
Proof.
  revert w. induction rp as [|c rhead IH]; intros w.
  - apply os_mkdir_extends.
  - cbn [makedirs_rev]. rewrite io_bind_unfold, os_path_exists_eq.
    rewrite io_bind_unfold.
    destruct (exists_in w (rev rhead)); cbn [negb].
    + apply os_mkdir_extends.
    + specialize (IH w). destruct (makedirs_rev rhead w) as [[[]|e] w1]; [|done].
      eapply extends_trans; [exact IH|]. apply os_mkdir_extends.
Qed.

(** [os.makedirs] on a path that exists raises. *)
Lemma makedirs_rev_exists rp w :
  exists_in w (rev rp) = true -> is_ok (makedirs_rev rp w).1 = false.
Proof.
  destruct rp as [|c rhead]; intros E.
  - cbn [makedirs_rev rev] in *. by rewrite (os_mkdir_exists [] w E).
  - cbn [makedirs_rev]. rewrite io_bind_unfold, os_path_exists_eq.
    rewrite io_bind_unfold.
    destruct (exists_in w (rev rhead)); cbn [negb io_pure].
    + by rewrite (os_mkdir_exists _ w E).
    + pose proof (makedirs_rev_extends rhead w) as X.
      destruct (makedirs_rev rhead w) as [[[]|e] w1]; [|done].
      by rewrite (os_mkdir_exists _ w1 (extends_exists _ _ _ X E)).
Qed.

Lemma os_makedirs_extends p w : extends w (os_makedirs p w).2.
Proof. apply makedirs_rev_extends. Qed.

Lemma os_makedirs_exists p w :
  exists_in w p = true -> is_ok (os_makedirs p w).1 = false.
Proof.
  intros E. apply makedirs_rev_exists. by rewrite rev_involutive.
Qed.

Lemma logger_emit_extends level msg w : extends w (logger_emit level msg w).2.
Proof. split; [done|]. by eexists. Qed.

Lemma filter_io_exists ds w :
  filter_io os_path_exists ds w = (Ok (List.filter (exists_in w) ds), w).
Proof.
  induction ds as [|d ds IH]; [done|].
  cbn [filter_io List.filter]. rewrite io_bind_unfold, os_path_exists_eq.
  rewrite io_bind_unfold, IH. by destruct (exists_in w d).
Qed.

(** ** run_diagnostic *)

(** The loop that creates the output directories, without
    [--ignore-existing]: it stops with an exception at a directory that
    exists, and until then it only adds to the world. *)
Lemma create_loop_raises ds w :
  (exists p, p ∈ ds /\ exists_in w p = true) ->
  let r :=
    for_each_io
      (fun output_directory =>
         _ ← logger_emit INFO ("Creating " +:+ path_str output_directory);
         skip ← (if false then os_path_exists output_directory
                 else io_pure false);
         if skip : bool then io_pure tt else os_makedirs output_directory)
      ds w in
  is_ok r.1 = false /\ extends w r.2.
Proof.
  revert w. induction ds as [|d ds IH]; intros w (p & Hin & Hp); simpl.
  - by apply not_elem_of_nil in Hin.
  - rewrite io_bind_unfold. rewrite io_bind_unfold. cbn [logger_emit].
    rewrite io_bind_unfold. cbn [io_pure].
    set (w1 := World (files w) (log_records w ++ [(INFO, "Creating " +:+ path_str d)])).
    assert (X1 : extends w w1) by (apply (logger_emit_extends INFO _ w)).
    pose proof (os_makedirs_extends d w1) as X2.
    destruct (os_makedirs d w1) as [[[]|e] w2] eqn:M; simpl in X2.
    + apply elem_of_cons in Hin as [->|Hin].
      * pose proof (os_makedirs_exists d w1 (extends_exists _ _ _ X1 Hp)) as N.
        by rewrite M in N.
      * destruct (IH w2) as [R1 R2].
        { exists p. split; [done|].
          eapply extends_exists; [|exact Hp]. by eapply extends_trans. }
        split; [exact R1|].
        eapply extends_trans; [exact X1|]. by eapply extends_trans.
    + split; [done|]. by eapply extends_trans.
Qed.

Example run_diagnostic_example :
  let r := run_diagnostic (Config true true ["run"; "work"] ["run"; "plots"])
             (Arguments false false)
             (World {[ ["run"] := Dir; ["run"; "plots"] := Dir ]} []) in
  r.1 = Raise (FileExistsError ["run"; "plots"])
  /\ files r.2 = {[ ["run"] := Dir; ["run"; "plots"] := Dir;
                    ["run"; "work"] := Dir ]}.
Proof. split; reflexivity. Qed.

(** C5: when an output directory exists and neither [--force] nor
    [--ignore-existing] was given, [run_diagnostic] logs the error that
    names the existing directories and ends with an exception before
    [yield cfg]; every file and directory that was there is still
    there, with its content: nothing is removed or overwritten. *)
Theorem run_diagnostic_fails_closed (cfg : config) (args : arguments)
    (w : world) :
  force args = false ->
  ignore_existing args = false ->
  (exists p, p ∈ output_directories cfg /\ exists_in w p = true) ->
  exists e w',
    run_diagnostic cfg args w = (Raise e, w')
    /\ (ERROR, abort_message
                 (List.filter (exists_in w) (output_directories cfg)))
       ∈ log_records w'
    /\ (forall p n, files w !! p = Some n -> files w' !! p = Some n).
Proof.
  intros Hforce Hignore (p & Hin & Hp).
  unfold run_diagnostic. rewrite io_bind_unfold, filter_io_exists.
  rewrite Hforce, Hignore. cbn [negb].
  destruct (List.filter (exists_in w) (output_directories cfg))
    as [|d existing] eqn:Hex.
  { assert (X : p ∈ List.filter (exists_in w) (output_directories cfg)).
    { apply list_elem_of_In, filter_In. split; [by apply list_elem_of_In|done]. }
    rewrite Hex in X. by apply not_elem_of_nil in X. }
  rewrite io_bind_unfold. cbn [logger_emit].
  set (w1 := World (files w) (log_records w ++ [(ERROR, abort_message (d :: existing))])).
  assert (X1 : extends w w1) by (apply (logger_emit_extends ERROR _ w)).
  destruct (create_loop_raises (output_directories cfg) w1) as [R1 R2].
  { exists p. split; [done|]. by eapply extends_exists. }
  rewrite io_bind_unfold.
  destruct (for_each_io _ (output_directories cfg) w1) as [[[]|e] w2];
    [done|].
  exists e, w2. split; [done|]. simpl in R2. destruct R2 as [F [more L]].
  split.
  - rewrite L. apply elem_of_app. left. simpl. apply elem_of_app. right. left.
  - intros q n Hq. eapply lookup_weaken; [exact Hq|]. by etrans; [apply X1|].
Qed.

Lemma run_diagnostic_fails_closed_witness :
  exists e w',
    run_diagnostic (Config true true ["run"; "work"] ["run"; "plots"])
      (Arguments false false)
      (World {[ ["run"] := Dir; ["run"; "plots"] := Dir ]} [])
    = (Raise e, w')
    /\ files w' !! ["run"; "plots"] = Some Dir.
Proof.
  destruct (run_diagnostic_fails_closed
              (Config true true ["run"; "work"] ["run"; "plots"])
              (Arguments false false)
              (World {[ ["run"] := Dir; ["run"; "plots"] := Dir ]} []))
    as (e & w' & E & _ & H).
  - reflexivity.
  - reflexivity.
  - exists ["run"; "plots"]. split; [|by vm_compute].
    right. left.
  - exists e, w'. split; [exact E|]. apply H. by vm_compute.
Defined.

(** ** The observation loaders *)

Lemma lift_ext_no_assertion {A} (r : string + A) msg :
  lift_ext r <> Raise (AssertionError msg).
Proof. by destruct r. Qed.

Lemma regrid_reference_no_assertion {D} (ext : external D) aux_dir self msg :
  regrid_reference ext aux_dir self <> Raise (AssertionError msg).
Proof.
  unfold regrid_reference.
  destruct (last_char (_work_dir self)) as [c|]; [|done].
  unfold mbind, result_bind; cbn [rbind].
  destruct (dataset_dims ext (_ref_file self)) as [m|dims]; [done|].
  cbn [lift_ext rbind].
  destruct (negb (is_known_grid dims.1 dims.2)); [|done].
  destruct (negb (file_exists ext _)); [|done].
  destruct (aggregate_resolution ext (_ref_file self) "T63") as [m|tmp];
    [done|]. cbn [lift_ext rbind].
  by destruct (os_remove ext tmp).
Qed.

Lemma regrid_reference_var {D} (ext : external D) aux_dir self self1 :
  regrid_reference ext aux_dir self = Ok self1 -> var self1 = var self.
Proof.
  unfold regrid_reference.
  destruct (last_char (_work_dir self)) as [c|]; [|done].
  unfold mbind, result_bind; cbn [rbind].
  destruct (dataset_dims ext (_ref_file self)) as [m|dims]; [done|].
  cbn [lift_ext rbind].
  destruct (negb (is_known_grid dims.1 dims.2)); [|by inversion 1].
  destruct (negb (file_exists ext _)); [|by inversion 1].
  destruct (aggregate_resolution ext (_ref_file self) "T63") as [m|tmp];
    [done|]. cbn [lift_ext rbind].
  destruct (os_remove ext tmp); [done|]. by inversion 1.
Qed.

Lemma alb_unsupported {D} (ext : external D) self v :
  current_variable ext = inr v -> v <> "alb" ->
  is_ok (alb_load_observation_data ext self) = false
  /\ forall self1,
       regrid_reference ext "AUX_Files_alb_QA4ECV" self = Ok self1 ->
       alb_load_observation_data ext self
       = Raise (AssertionError "Not supported yet").
Proof.
  intros Hv Hne. unfold alb_load_observation_data.
  apply String.eqb_neq in Hne.
  destruct (regrid_reference ext _ self) as [self1|e]; [|done].
  unfold mbind, result_bind; cbn [rbind]. rewrite Hv. cbn [lift_ext rbind].
  by rewrite Hne.
Qed.

Lemma alb_supported {D} (ext : external D) self msg :
  current_variable ext = inr "alb" ->
  alb_load_observation_data ext self <> Raise (AssertionError msg).
Proof.
  intros Hv. unfold alb_load_observation_data.
  pose proof (regrid_reference_no_assertion ext "AUX_Files_alb_QA4ECV" self msg).
  destruct (regrid_reference ext _ self) as [self1|e]; [|done].
  unfold mbind, result_bind; cbn [rbind]. rewrite Hv. cbn [lift_ext rbind].
  rewrite String.eqb_refl.
  by destruct (load_cci_generic ext (_ref_file self1) "alb").
Qed.

Lemma lc_unsupported {D} (ext : external D) self :
  var self ∉ ["baresoilFrac"; "grassNcropFrac"; "shrubNtreeFrac"] ->
  is_ok (lc_load_observation_data ext self) = false
  /\ forall self1,
       regrid_reference ext "AUX_Files_lc_ESACCI" self = Ok self1 ->
       lc_load_observation_data ext self
       = Raise (AssertionError "Not supported yet").
Proof.
  intros Hv. unfold lc_load_observation_data.
  destruct (regrid_reference ext _ self) as [self1|e] eqn:E; [|done].
  apply regrid_reference_var in E.
  unfold mbind, result_bind; cbn [rbind]. rewrite E.
  by rewrite bool_decide_eq_false_2.
Qed.

Lemma lc_supported {D} (ext : external D) self msg :
  var self ∈ ["baresoilFrac"; "grassNcropFrac"; "shrubNtreeFrac"] ->
  lc_load_observation_data ext self <> Raise (AssertionError msg).
Proof.
  intros Hv. unfold lc_load_observation_data.
  pose proof (regrid_reference_no_assertion ext "AUX_Files_lc_ESACCI" self msg).
  destruct (regrid_reference ext _ self) as [self1|e] eqn:E; [|done].
  apply regrid_reference_var in E.
  unfold mbind, result_bind; cbn [rbind]. rewrite E.
  rewrite bool_decide_eq_true_2 by done.
  by destruct (load_cci_generic ext (_ref_file self1) (var self)).
Qed.

(** C9: in both [_load_observation_data] methods an unsupported
    variable ends in the assertion failure ['Not supported yet'] once
    the statements before the choice have run, and the method never
    returns for it; for a supported variable the assertion is not
    raised.  The albedo method supports ['alb'], the land-cover method
    ['baresoilFrac'], ['grassNcropFrac'] and ['shrubNtreeFrac']. *)
Theorem load_observation_data_assertion {D} (ext : external D)
    (self : diagnostic D) :
  (forall v, current_variable ext = inr v ->
     (v <> "alb" ->
        is_ok (alb_load_observation_data ext self) = false
        /\ forall self1,
             regrid_reference ext "AUX_Files_alb_QA4ECV" self = Ok self1 ->
             alb_load_observation_data ext self
             = Raise (AssertionError "Not supported yet"))
     /\ (v = "alb" ->
           forall msg,
             alb_load_observation_data ext self <> Raise (AssertionError msg)))
  /\ (var self ∉ ["baresoilFrac"; "grassNcropFrac"; "shrubNtreeFrac"] ->
        is_ok (lc_load_observation_data ext self) = false
        /\ forall self1,
             regrid_reference ext "AUX_Files_lc_ESACCI" self = Ok self1 ->
             lc_load_observation_data ext self
             = Raise (AssertionError "Not supported yet"))
  /\ (var self ∈ ["baresoilFrac"; "grassNcropFrac"; "shrubNtreeFrac"] ->
        forall msg,
          lc_load_observation_data ext self <> Raise (AssertionError msg)).
Proof.
  split; [|split].
  - intros v Hv. split.
    + intros Hne. by apply (alb_unsupported ext self v).
    + intros -> msg. by apply alb_supported.
  - apply lc_unsupported.
  - intros Hv msg. by apply lc_supported.
Qed.

Lemma load_observation_data_assertion_witness :
  let ext : external string :=
    External string (fun _ => inr (96%Z, 192%Z)) (fun _ => true)
      (fun _ _ => inr "tmp.nc") (fun _ => inr tt) (fun f _ => inr f)
      (fun d _ => d) (inr "sm") in
  let self : diagnostic string := Diagnostic "obs/ref.nc" "./" "sm" None in
  alb_load_observation_data ext self
  = Raise (AssertionError "Not supported yet")
  /\ lc_load_observation_data ext self
     = Raise (AssertionError "Not supported yet").
Proof.
  intros ext self.
  destruct (load_observation_data_assertion ext self) as (Ha & Hl & _).
  split.
  - destruct (Ha "sm") as [H _]; [reflexivity|].
    destruct H as [_ H]; [done|]. by apply (H self).
  - destruct Hl as [_ H].
    + vm_compute. intros H. repeat (apply elem_of_cons in H as [H|H]; [done|]).
      by apply not_elem_of_nil in H.
    + by apply (H self).
Defined.

(** ** Saving the provenance table *)

Lemma dirname_join p name : dirname (path_join p name) = p.
Proof. apply removelast_last. Qed.

Lemma node_at_snoc fs p c : node_at fs (p ++ [c]) = fs !! (p ++ [c]).
Proof. by destruct p. Qed.

Lemma exists_in_false w p : exists_in w p = false <-> node_at (files w) p = None.
Proof.
  unfold exists_in. rewrite bool_decide_eq_false.
  destruct (node_at (files w) p); split; try done.
  intros H. exfalso. apply H. eauto.
Qed.

Lemma exists_in_true w p :
  exists_in w p = true <-> exists n, node_at (files w) p = Some n.
Proof. unfold exists_in. by rewrite bool_decide_eq_true. Qed.

Lemma snoc_not_prefix (p : path) c : ~ (p ++ [c]) `prefix_of` p.
Proof.
  intros H. apply prefix_length in H. rewrite length_app in H. simpl in H. lia.
Qed.

Lemma os_mkdir_ok p c w :
  node_at (files w) (p ++ [c]) = None ->
  node_at (files w) p = Some Dir ->
  os_mkdir (p ++ [c]) w
  = (Ok tt, World (<[p ++ [c] := Dir]> (files w)) (log_records w)).
Proof.
  intros Hp Hd. unfold os_mkdir. rewrite Hp. unfold dirname.
  by rewrite removelast_last, Hd.
Qed.

(** [os.makedirs] makes a missing directory when no part of the path
    is a regular file, and touches nothing outside the path. *)
Lemma makedirs_rev_ok rp w :
  exists_in w (rev rp) = false ->
  (forall q doc, q `prefix_of` rev rp -> node_at (files w) q <> Some (File doc)) ->
  exists w',
    makedirs_rev rp w = (Ok tt, w')
    /\ node_at (files w') (rev rp) = Some Dir
    /\ log_records w' = log_records w
    /\ (forall q, ~ q `prefix_of` rev rp -> files w' !! q = files w !! q).
Proof.
  revert w. induction rp as [|c rhead IH]; intros w Hp Hfile.
  - done.
  - cbn [makedirs_rev]. cbn [rev] in *.
    rewrite io_bind_unfold, os_path_exists_eq, io_bind_unfold.
    apply exists_in_false in Hp.
    destruct (exists_in w (rev rhead)) eqn:Eh; cbn [negb io_pure].
    + apply exists_in_true in Eh as [n Hn].
      assert (n = Dir) as ->.
      { destruct n as [|doc]; [done|]. exfalso.
        apply (Hfile (rev rhead) doc); [by apply prefix_app_r | done]. }
      rewrite (os_mkdir_ok _ _ w Hp Hn). eexists. split; [done|].
      cbn [files log_records]. rewrite node_at_snoc, lookup_insert_eq.
      repeat split. intros q Hq. apply lookup_insert_ne. by intros <-.
    + destruct (IH w Eh) as (w1 & E1 & Hd1 & Hl1 & Hk1).
      { intros q doc Hq. apply Hfile. by apply prefix_app_r. }
      rewrite E1.
      assert (Hp1 : node_at (files w1) (rev rhead ++ [c]) = None).
      { rewrite node_at_snoc, Hk1 by apply snoc_not_prefix.
        by rewrite <- node_at_snoc. }
      rewrite (os_mkdir_ok _ _ w1 Hp1 Hd1). eexists. split; [done|].
      cbn [files log_records]. rewrite node_at_snoc, lookup_insert_eq.
      repeat split; [done|]. intros q Hq.
      rewrite lookup_insert_ne by (by intros <-).
      apply Hk1. intros Hq'. apply Hq. by apply prefix_app_r.
Qed.

Lemma write_yaml_ok p name doc w :
  node_at (files w) (path_join p name) <> Some Dir ->
  node_at (files w) p = Some Dir ->
  write_yaml (path_join p name) doc w
  = (Ok tt, World (<[path_join p name := File doc]> (files w)) (log_records w)).
Proof.
  intros Hf Hd. unfold write_yaml. rewrite dirname_join, Hd.
  by destruct (node_at (files w) (path_join p name)) as [[|doc']|].
Qed.

Lemma node_at_insert_eq fs p name n :
  node_at (<[path_join p name := n]> fs) (path_join p name) = Some n.
Proof. unfold path_join. rewrite node_at_snoc. apply lookup_insert_eq. Qed.

Lemma node_at_insert_ne fs p q n :
  p <> q -> node_at (<[p := n]> fs) q = node_at fs q.
Proof. intros H. destruct q; [done|]. simpl. by apply lookup_insert_ne. Qed.

Lemma path_join_ne p name : path_join p name <> p.
Proof.
  unfold path_join. intros E. apply (f_equal length) in E.
  rewrite length_app in E. simpl in E. lia.
Qed.

Lemma save_ok work_dir name tbl w :
  (forall q doc, q `prefix_of` work_dir ->
                 node_at (files w) q <> Some (File doc)) ->
  node_at (files w) (path_join work_dir name) <> Some Dir ->
  exists w',
    _save (Logger (path_join work_dir name) tbl) w = (Ok tt, w')
    /\ node_at (files w') work_dir = Some Dir
    /\ node_at (files w') (path_join work_dir name) = Some (File tbl)
    /\ log_records w' = log_records w
    /\ (forall q, ~ q `prefix_of` path_join work_dir name ->
                  files w' !! q = files w !! q).
Proof.
  intros Hfile Hlog. unfold _save. cbn [_log_file table].
  rewrite dirname_join, io_bind_unfold, os_path_exists_eq, io_bind_unfold.
  assert (Hne : forall q, ~ q `prefix_of` path_join work_dir name ->
                          path_join work_dir name <> q).
  { by intros q Hq <-. }
  destruct (exists_in w work_dir) eqn:Ed; cbn [negb io_pure].
  - apply exists_in_true in Ed as [n Hn].
    assert (n = Dir) as ->.
    { destruct n as [|doc]; [done|]. exfalso. by apply (Hfile work_dir doc). }
    rewrite (write_yaml_ok _ _ _ w Hlog Hn). eexists. split; [done|].
    cbn [files log_records].
    split; [by rewrite node_at_insert_ne by apply path_join_ne|].
    split; [apply node_at_insert_eq|]. split; [done|].
    intros q Hq. apply lookup_insert_ne. by apply Hne.
  - destruct (makedirs_rev_ok (rev work_dir) w) as (w1 & E1 & Hd1 & Hl1 & Hk1).
    { by rewrite rev_involutive. }
    { rewrite rev_involutive. exact Hfile. }
    rewrite rev_involutive in Hd1, Hk1.
    unfold os_makedirs. rewrite E1.
    assert (Hlog1 : node_at (files w1) (path_join work_dir name) <> Some Dir).
    { unfold path_join in *. rewrite node_at_snoc in *.
      rewrite Hk1; [done|]. apply snoc_not_prefix. }
    rewrite (write_yaml_ok _ _ _ w1 Hlog1 Hd1). eexists. split; [done|].
    cbn [files log_records].
    split; [by rewrite node_at_insert_ne by apply path_join_ne|].
    split; [apply node_at_insert_eq|]. split; [done|].
    intros q Hq. rewrite lookup_insert_ne by (by apply Hne).
    apply Hk1. intros Hq'. apply Hq. unfold path_join. by apply prefix_app_r.
Qed.

(** Opening the logger reads the world and leaves it as it is. *)
Lemma ProvenanceLogger_init_inv work_dir w r w' :
  ProvenanceLogger_init work_dir w = (r, w') ->
  w' = w
  /\ forall self, r = Ok self ->
       _log_file self = path_join work_dir "diagnostic_provenance.yml"
       /\ node_at (files w) (path_join work_dir "diagnostic_provenance.yml")
          <> Some Dir.
Proof.
  unfold ProvenanceLogger_init.
  rewrite io_bind_unfold, os_path_exists_eq. unfold exists_in.
  destruct (node_at (files w) (path_join work_dir "diagnostic_provenance.yml"))
    as [[|doc]|] eqn:E.
  - rewrite bool_decide_eq_true_2 by eauto. cbn [negb].
    rewrite io_bind_unfold. unfold read_yaml. rewrite E. by inversion 1.
  - rewrite bool_decide_eq_true_2 by eauto. cbn [negb].
    rewrite io_bind_unfold. unfold read_yaml. rewrite E.
    cbn [io_pure]. inversion 1; subst. split; [done|].
    intros self Hs. by inversion Hs; subst.
  - rewrite bool_decide_eq_false_2 by (by intros [? ?]). cbn [negb io_pure].
    inversion 1; subst. split; [done|].
    intros self Hs. by inversion Hs; subst.
Qed.

Lemma ProvenanceLogger_init_file work_dir doc w :
  node_at (files w) (path_join work_dir "diagnostic_provenance.yml")
  = Some (File doc) ->
  ProvenanceLogger_init work_dir w
  = (Ok (Logger (path_join work_dir "diagnostic_provenance.yml") doc), w).
Proof.
  intros E. unfold ProvenanceLogger_init.
  rewrite io_bind_unfold, os_path_exists_eq. unfold exists_in. rewrite E.
  rewrite bool_decide_eq_true_2 by eauto. cbn [negb].
  rewrite io_bind_unfold. unfold read_yaml. by rewrite E.
Qed.

Lemma log_keeps_file filename rec self :
  _log_file (log filename rec self).2 = _log_file self.
Proof.
  unfold log. destruct (table self) as [|t]; [done|].
  by destruct (bool_decide (is_Some (t !! filename))).
Qed.

Lemma run_body_keeps_file body self :
  _log_file (run_body body self).2 = _log_file self.
Proof.
  revert self. induction body as [|[f r|f r|e] body IH]; intros self; simpl.
  - done.
  - pose proof (log_keeps_file f r self) as K.
    destruct (log f r self) as [[[]|e] self1]; simpl in *; [|done].
    by rewrite IH.
  - by rewrite IH, log_keeps_file.
  - done.
Qed.

Example with_ProvenanceLogger_example :
  let r := with_ProvenanceLogger ["run"; "work"]
             [SLog "a.nc" {[ "caption" := PStr "A" ]};
              STryLog "a.nc" ∅;
              SLog "b.nc" {[ "authors" := PList ["x"; "y"] ]};
              SRaise (DiagnosticError "failed");
              SLog "c.nc" ∅]
             (World ∅ []) in
  r.1 = Raise (DiagnosticError "failed")
  /\ files r.2
     = {[ ["run"] := Dir; ["run"; "work"] := Dir;
          ["run"; "work"; "diagnostic_provenance.yml"]
            := File (TDict {[ "a.nc" := {[ "caption" := PStr "A" ]};
                              "b.nc" := {[ "authors" := PList ["x"; "y"] ]} ]}) ]}.
Proof. split; reflexivity. Qed.

(** C4: when the scope of a [ProvenanceLogger] has been entered and no
    part of the path of the work directory is a regular file, the exit
    of the scope, after a body that ended normally or with an
    exception, writes the whole in-memory table to
    [diagnostic_provenance.yml] in the work directory, which exists
    afterwards; the outcome of the body is the outcome of the [with]
    statement; opening the logger again gives that table, and the table
    holds every entry that was logged with success; nothing outside the
    path of the log file is touched. *)
Theorem with_ProvenanceLogger_saves (work_dir : path) (body : list stmt)
    (w : world) :
  (forall q doc, q `prefix_of` work_dir ->
                 node_at (files w) q <> Some (File doc)) ->
  is_ok (ProvenanceLogger_init work_dir w).1 = true ->
  let log_file := path_join work_dir "diagnostic_provenance.yml" in
  exists self w',
    ProvenanceLogger_init work_dir w = (Ok self, w)
    /\ with_ProvenanceLogger work_dir body w = ((run_body body self).1, w')
    /\ node_at (files w') work_dir = Some Dir
    /\ node_at (files w') log_file
       = Some (File (table (run_body body self).2))
    /\ ProvenanceLogger_init work_dir w'
       = (Ok (Logger log_file (table (run_body body self).2)), w')
    /\ (forall f r,
          (f, r) ∈ successfully_logged body self ->
          exists t, table (run_body body self).2 = TDict t
                    /\ t !! f = Some r)
    /\ (forall q, ~ q `prefix_of` log_file -> files w' !! q = files w !! q).
Proof.
  intros Hfile Hinit log_file.
  destruct (ProvenanceLogger_init work_dir w) as [r w0] eqn:E.
  destruct (ProvenanceLogger_init_inv _ _ _ _ E) as [-> Hself].
  destruct r as [self|e]; [|done].
  destruct (Hself self eq_refl) as [Hlf Hnd].
  pose proof (run_body_keeps_file body self) as Hkeep.
  destruct (save_ok work_dir "diagnostic_provenance.yml"
              (table (run_body body self).2) w Hfile Hnd)
    as (w' & Es & Hd & Hf & _ & Hk).
  exists self, w'. split; [done|].
  split.
  { unfold with_ProvenanceLogger. rewrite io_bind_unfold, E.
    unfold with_exit, __exit__.
    destruct (run_body body self) as [outcome [lf tbl]].
    cbn [fst snd _log_file table] in *. rewrite Hkeep, Hlf.
    by rewrite Es. }
  split; [done|]. split; [done|].
  split; [by apply ProvenanceLogger_init_file|].
  split; [intros f r; apply run_body_logged | done].
Qed.

Lemma with_ProvenanceLogger_saves_witness :
  exists w',
    with_ProvenanceLogger ["run"; "work"]
      [SLog "a.nc" {[ "caption" := PStr "A" ]};
       SRaise (DiagnosticError "failed")]
      (World {[ ["run"] := Dir ]} [])
    = (Raise (DiagnosticError "failed"), w')
    /\ ProvenanceLogger_init ["run"; "work"] w'
       = (Ok (Logger ["run"; "work"; "diagnostic_provenance.yml"]
                (TDict {[ "a.nc" := {[ "caption" := PStr "A" ]} ]})), w').
Proof.
  destruct (with_ProvenanceLogger_saves ["run"; "work"]
              [SLog "a.nc" {[ "caption" := PStr "A" ]};
               SRaise (DiagnosticError "failed")]
              (World {[ ["run"] := Dir ]} []))
    as (self & w' & Ei & Ew & _ & _ & Er & _).
  - intros q doc [k Hk].
    destruct q as [|a [|b [|c q]]]; simplify_eq/=; done.
  - reflexivity.
  - vm_compute in Ei. inversion Ei; subst self. clear Ei.
    exists w'. split; [exact Ew | exact Er].
Defined.


(** * Further properties of the metadata helpers *)

Lemma select_metadata_filter metadata attributes :
  select_metadata metadata attributes = filter (satisfies attributes) metadata.
Proof. unfold select_metadata. by rewrite select_loop. Qed.

(** X1: selections compose: selecting twice keeps the records that
    satisfy both sets of constraints, the order of the two selections
    does not matter, and repeating a selection changes nothing. *)
Theorem select_metadata_compose (metadata : list record) (a b : record) :
  select_metadata (select_metadata metadata a) b
  = filter (fun r => satisfies a r /\ satisfies b r) metadata
  /\ select_metadata (select_metadata metadata a) b
     = select_metadata (select_metadata metadata b) a
  /\ select_metadata (select_metadata metadata a) a
     = select_metadata metadata a.
Proof.
  rewrite !select_metadata_filter, !list_filter_filter.
  split; [|split].
  - apply list_filter_iff. tauto.
  - apply list_filter_iff. tauto.
  - apply list_filter_iff. tauto.
Qed.

(** X2: two selections on different attributes are one selection on
    both sets of constraints. *)
Theorem select_metadata_union (metadata : list record) (a b : record) :
  a ##ₘ b ->
  select_metadata (select_metadata metadata a) b
  = select_metadata metadata (a ∪ b).
Proof.
  intros Hd. rewrite !select_metadata_filter, list_filter_filter.
  apply list_filter_iff. intros r. unfold satisfies.
  rewrite map_Forall_union by done. tauto.
Qed.

Lemma select_metadata_union_witness :
  select_metadata
    (select_metadata
       [ {[ "var" := VStr "tas"; "exp" := VStr "ssp" ]};
         {[ "var" := VStr "tas"; "exp" := VStr "hist" ]};
         {[ "var" := VStr "pr"; "exp" := VStr "ssp" ]} ]
       {[ "var" := VStr "tas" ]})
    {[ "exp" := VStr "ssp" ]}
  = select_metadata
      [ {[ "var" := VStr "tas"; "exp" := VStr "ssp" ]};
        {[ "var" := VStr "tas"; "exp" := VStr "hist" ]};
        {[ "var" := VStr "pr"; "exp" := VStr "ssp" ]} ]
      ({[ "var" := VStr "tas" ]} ∪ {[ "exp" := VStr "ssp" ]}).
Proof.
  apply select_metadata_union. apply map_disjoint_singleton_l_2.
  by vm_compute.
Defined.

Lemma satisfies_singleton attribute k r :
  satisfies {[ attribute := k ]} r <-> constraint_ok r attribute k.
Proof. unfold satisfies. apply map_Forall_singleton. Qed.

(** X3: the group of a key that is neither [None] nor the wildcard is
    the selection of the records whose attribute has that value. *)
Theorem group_is_selection {L : PyLower} (metadata : list record) (attribute : string)
    (groups : odict (list record)) (k : pyval) (members : list record) :
  group_metadata metadata attribute SortNone = Ok groups ->
  (k, members) ∈ groups ->
  k <> VNone -> k <> VStr "*" ->
  members = select_metadata metadata {[ attribute := k ]}.
Proof.
  unfold group_metadata. cbn [sort_truthy]. intros E Hin Hn Hs.
  inversion E; subst groups. clear E. rewrite group_loop in Hin.
  apply list_elem_of_fmap in Hin as (k' & E & _). inversion E; subst k' members.
  rewrite select_metadata_filter. unfold members_of.
  apply list_filter_iff. intros r. rewrite satisfies_singleton.
  unfold constraint_ok, group_key.
  destruct (r !! attribute) as [w|]; simpl.
  - rewrite py_eq_sym. split.
    + intros H. left. by apply Is_true_true.
    + intros [H|H]; [by apply Is_true_true | done].
  - split; [|done]. intros H. apply Is_true_true in H. by destruct k.
Qed.

Lemma group_is_selection_witness :
  [ ({[ "v" := VStr "t"; "e" := VStr "s" ]} : record);
    {[ "v" := VStr "p"; "e" := VStr "s" ]} ]
  = select_metadata
      [ {[ "v" := VStr "t"; "e" := VStr "s" ]};
        {[ "v" := VStr "t" ]};
        {[ "v" := VStr "p"; "e" := VStr "s" ]} ]
      {[ "e" := VStr "s" ]}.
Proof.
  apply (group_is_selection (L := lower_ascii) _ "e"
           [ (VStr "s", [ {[ "v" := VStr "t"; "e" := VStr "s" ]};
                          {[ "v" := VStr "p"; "e" := VStr "s" ]} ]);
             (VNone, [ {[ "v" := VStr "t" ]} ]) ]
           (VStr "s")).
  - reflexivity.
  - left.
  - done.
  - done.
Defined.

(** ** Sorting, selecting and sorting in stages *)

Section PySortedCompose.
Context {A K : Type} (cmp : K -> K -> comparison) `{!CmpLaws cmp}.
Context (key : A -> K).

Local Abbreviation le := (key_le cmp key).
Local Abbreviation lt := (key_lt cmp key).
Local Abbreviation insert := (insert_stable cmp key).
Local Abbreviation sorted := (py_sorted cmp key).

Lemma insert_stable_le_all x l : Forall (le x) l -> insert x l = x :: l.
Proof.
  destruct 1 as [|y l Hy _]; simpl; [done|].
  apply key_lt_false_le in Hy. by rewrite Hy.
Qed.

Lemma insert_stable_filter_sorted (P : A -> Prop) `{!forall x, Decision (P x)}
    x l :
  StronglySorted le l ->
  filter P (insert x l)
  = if decide (P x) then insert x (filter P l) else filter P l.
Proof.
  induction 1 as [|y l Hs IH Hy]; simpl.
  - rewrite filter_cons, filter_nil. by destruct (decide (P x)).
  - destruct (lt y x) eqn:E.
    + rewrite !(filter_cons _ y), IH.
      destruct (decide (P x)), (decide (P y)); simpl; try done.
      by rewrite E.
    + rewrite (filter_cons _ x). destruct (decide (P x)); [|done].
      rewrite insert_stable_le_all; [done|].
      apply key_lt_false_le in E.
      apply Forall_forall. intros z Hz.
      apply list_elem_of_filter in Hz as [_ Hz].
      apply elem_of_cons in Hz as [->|Hz]; [done|].
      rewrite Forall_forall in Hy. eapply key_le_trans; eauto.
Qed.

Lemma py_sorted_filter_commute (P : A -> Prop) `{!forall x, Decision (P x)} l :
  filter P (sorted l) = sorted (filter P l).
Proof.
  induction l as [|x l IH]; [done|]. cbn [py_sorted foldr].
  rewrite insert_stable_filter_sorted by (by apply py_sorted_sorted).
  fold (sorted l). rewrite IH, filter_cons.
  by destruct (decide (P x)).
Qed.

Lemma py_sorted_ext (key' : A -> K) l :
  (forall a, key a = key' a) -> sorted l = py_sorted cmp key' l.
Proof.
  intros H. induction l as [|x l IH]; [done|]. cbn [py_sorted foldr].
  fold (sorted l) (py_sorted cmp key' l). rewrite IH. clear IH.
  induction (py_sorted cmp key' l) as [|y t IHt]; simpl; [done|].
  unfold key_lt. rewrite !H, IHt. done.
Qed.
End PySortedCompose.

Lemma lex_compare_app {K} (cmp : K -> K -> comparison) a1 a2 b1 b2 :
  length a1 = length b1 ->
  lex_compare cmp (a1 ++ a2) (b1 ++ b2)
  = match lex_compare cmp a1 b1 with
    | Eq => lex_compare cmp a2 b2
    | c => c
    end.
Proof.
  revert b1. induction a1 as [|x a1 IH]; intros [|y b1]; simpl; try done.
  intros E. destruct (cmp x y); [|done..]. apply IH. lia.
Qed.

Lemma filter_swap {A} (P Q : A -> Prop) `{!forall x, Decision (P x)}
    `{!forall x, Decision (Q x)} (l : list A) :
  filter P (filter Q l) = filter Q (filter P l).
Proof. rewrite !list_filter_filter. apply list_filter_iff. tauto. Qed.

Section PySortedStages.
Context {A K : Type} (cmp : K -> K -> comparison) {Hcmp : CmpLaws cmp}.
Context (key1 key2 : A -> list K) (n : nat).
Context (Hlen : forall a, length (key1 a) = n).

Local Abbreviation lex := (lex_compare cmp).
Local Abbreviation key12 := (fun a => key1 a ++ key2 a).
Local Abbreviation le1 := (key_le lex key1).
Local Abbreviation le2 := (key_le lex key2).
Local Abbreviation le12 := (key_le lex key12).

Lemma key_le_stages x z :
  le12 x z <-> le1 x z /\ (lex (key1 z) (key1 x) = Eq -> le2 x z).
Proof.
  unfold key_le. rewrite lex_compare_app by (by rewrite !Hlen).
  destruct (lex (key1 z) (key1 x)); intuition congruence.
Qed.

Lemma insert_stable_stages x t :
  StronglySorted le12 t -> Forall (le2 x) t ->
  StronglySorted le12 (insert_stable lex key1 x t).
Proof.
  pose proof (lex_cmp_laws cmp Hcmp) as Llex.
  induction 1 as [|y t Hs IH Hy]; intros Hx; simpl.
  - repeat constructor.
  - apply Forall_cons in Hx as [Hxy Hx].
    destruct (key_lt lex key1 y x) eqn:E.
    + constructor; [by apply IH|].
      rewrite insert_stable_perm. constructor; [|done].
      apply key_le_stages. split; [by apply key_lt_le|].
      unfold key_lt in E. rewrite (cmp_antisym (key1 y) (key1 x)).
      by destruct (lex (key1 y) (key1 x)).
    + apply key_lt_false_le in E; [|done..].
      constructor; [by constructor|].
      assert (Hxy12 : le12 x y).
      { apply key_le_stages. by split. }
      constructor; [done|].
      eapply Forall_impl; [exact Hy|]. intros z Hz.
      by eapply (key_le_trans lex key12).
Qed.

Lemma py_sorted_stages_sorted l :
  StronglySorted le2 l -> StronglySorted le12 (py_sorted lex key1 l).
Proof.
  induction 1 as [|x l Hs IH Hx]; simpl; [constructor|].
  apply insert_stable_stages; [done|]. by rewrite py_sorted_perm.
Qed.

Lemma same_key_stages kv a :
  same_key lex key12 kv a = true
  <-> same_key lex key1 (take n kv) a = true
      /\ same_key lex key2 (drop n kv) a = true.
Proof.
  pose proof (lex_cmp_laws cmp Hcmp) as Llex.
  rewrite !same_key_iff by done. split.
  - intros <-. rewrite <- (Hlen a).
    by rewrite take_app_length, drop_app_length.
  - intros [E1 E2]. rewrite <- (take_drop n kv). by rewrite E1, E2.
Qed.

Lemma filter_same_key_stages kv (l : list A) :
  filter (same_key lex key12 kv) l
  = filter (same_key lex key2 (drop n kv))
      (filter (same_key lex key1 (take n kv)) l).
Proof.
  rewrite list_filter_filter. apply list_filter_iff. intros a.
  rewrite !Is_true_true, same_key_stages. tauto.
Qed.

(** Sorting by the last keys and then, stably, by the first keys sorts
    by all of them. *)
Lemma py_sorted_stages l :
  py_sorted lex key1 (py_sorted lex key2 l) = py_sorted lex key12 l.
Proof.
  pose proof (lex_cmp_laws cmp Hcmp) as Llex.
  apply (stable_sorted_eq lex key12).
  - by apply py_sorted_stages_sorted, py_sorted_sorted.
  - by apply py_sorted_sorted.
  - intros kv. rewrite (py_sorted_filter lex key12) by done.
    rewrite !filter_same_key_stages.
    rewrite (py_sorted_filter lex key1) by done.
    rewrite (filter_swap _ _ (py_sorted lex key2 l)).
    rewrite (py_sorted_filter lex key2) by done.
    apply filter_swap.
Qed.
End PySortedStages.

Lemma normalized_variable_key_app {L : PyLower} ks1 ks2 r :
  normalized_variable_key (ks1 ++ ks2) r
  = normalized_variable_key ks1 r ++ normalized_variable_key ks2 r.
Proof. unfold normalized_variable_key. apply map_app. Qed.

(** X4: selecting and sorting commute: sorting a selection gives the
    selection of the sorted list. *)
Theorem select_sorted_commute {L : PyLower} (metadata : list record) (attributes : record)
    (ks : list string) :
  sorted_metadata (select_metadata metadata attributes) (SortKeys ks)
  = (out ← sorted_metadata metadata (SortKeys ks);
     Ok (select_metadata out attributes)).
Proof.
  cbn [sorted_metadata]. unfold mbind, result_bind. cbn [rbind].
  rewrite !select_metadata_filter.
  by rewrite (py_sorted_filter_commute tuple_compare).
Qed.

(** X5: sorting by several attributes is sorting in stages: sort by the
    last attributes first, then by the first ones; the stable sort
    keeps the earlier order among records that agree on the first
    attributes. *)
Theorem sorted_metadata_stages {L : PyLower} (metadata : list record) (ks1 ks2 : list string) :
  (out ← sorted_metadata metadata (SortKeys ks2);
   sorted_metadata out (SortKeys ks1))
  = sorted_metadata metadata (SortKeys (ks1 ++ ks2)).
Proof.
  cbn [sorted_metadata]. unfold mbind, result_bind. cbn [rbind]. f_equal.
  unfold tuple_compare.
  rewrite (py_sorted_stages str_compare (normalized_variable_key ks1)
             (normalized_variable_key ks2) (length ks1)).
  - apply py_sorted_ext. intros r. by rewrite normalized_variable_key_app.
  - intros r. unfold normalized_variable_key. apply length_map.
Qed.

Example sorted_metadata_stages_example :
  sorted_metadata (L := lower_ascii)
    [ {[ "project" := VStr "obs"; "dataset" := VStr "b" ]};
      {[ "project" := VStr "CMIP"; "dataset" := VStr "c" ]};
      {[ "project" := VStr "cmip"; "dataset" := VStr "A" ]} ]
    (SortKeys ["project"; "dataset"])
  = Ok [ {[ "project" := VStr "cmip"; "dataset" := VStr "A" ]};
         {[ "project" := VStr "CMIP"; "dataset" := VStr "c" ]};
         {[ "project" := VStr "obs"; "dataset" := VStr "b" ]} ].
Proof. reflexivity. Qed.

(** ** Sort specifications that are not documented *)

Lemma sorted_group_step_raises {L : PyLower} metadata_groups sort groups k members e :
  dict_get k metadata_groups = Some members ->
  sorted_metadata members sort = Raise e ->
  sorted_group_step metadata_groups sort groups k = Raise e.
Proof. unfold sorted_group_step. by intros -> ->. Qed.

Lemma sorted_group_loop_raises {L : PyLower} metadata_groups sort msg :
  (forall members, members <> [] ->
     sorted_metadata members sort = Raise (TypeError msg)) ->
  sorted_metadata [] sort = Ok [] ->
  forall rest acc,
    (forall kv, kv ∈ rest -> dict_get kv.1 metadata_groups = Some kv.2) ->
    (exists kv, kv ∈ rest /\ kv.2 <> []) ->
    for_each (sorted_group_step metadata_groups sort) (map fst rest) acc
    = Raise (TypeError msg).
Proof.
  intros Hraise Hnil. induction rest as [|[k ms] rest IH];
    intros acc Hget (kv & Hin & Hne).
  - by apply not_elem_of_nil in Hin.
  - cbn [map for_each fst].
    pose proof (Hget (k, ms) ltac:(left)) as Hk. cbn [fst snd] in Hk.
    destruct ms as [|m ms].
    + rewrite (sorted_group_step_ok _ _ _ _ _ _ Hk Hnil).
      unfold mbind at 1, result_bind at 1. cbn [rbind].
      apply IH.
      * intros kv' Hin'. apply Hget. by right.
      * exists kv. split; [|done].
        apply elem_of_cons in Hin as [->|Hin]; [done|done].
    + by rewrite (sorted_group_step_raises _ _ _ _ _ _ Hk
                    (Hraise (m :: ms) ltac:(done))).
Qed.

(** X6: [sorted_group_metadata] called with [None] or [False] as the
    sort specification raises [TypeError] as soon as one group has a
    member: only [True] stands for no sorting of the member lists. *)
Theorem sorted_group_metadata_not_iterable {L : PyLower}
    (metadata_groups : odict (list record)) (sort : sort_spec) :
  dict_wf metadata_groups ->
  sort = SortNone \/ sort = SortBool false ->
  (exists k members, (k, members) ∈ metadata_groups /\ members <> []) ->
  exists msg,
    sorted_group_metadata metadata_groups sort = Raise (TypeError msg).
Proof.
  intros Hwf Hsort (k & members & Hin & Hne).
  unfold sorted_group_metadata.
  rewrite (py_sorted_map str_compare normalized_group_key fst).
  set (sg := py_sorted _ _ metadata_groups).
  assert (P : sg ≡ₚ metadata_groups) by (apply py_sorted_perm).
  destruct Hsort as [-> | ->]; eexists;
    apply (sorted_group_loop_raises metadata_groups _ _).
  all: try (by intros [|m ms]).
  all: try done.
  all: try (intros [k' ms'] Hin'; apply dict_get_wf; [done|];
            by rewrite <- P).
  all: exists (k, members); split; [by rewrite P | done].
Qed.

Lemma sorted_group_metadata_not_iterable_witness :
  exists msg,
    sorted_group_metadata (L := lower_ascii)
      [ (VStr "a", [ (∅ : record) ]) ] (SortBool false)
    = Raise (TypeError msg).
Proof.
  apply sorted_group_metadata_not_iterable.
  - by vm_compute.
  - by right.
  - exists (VStr "a"), [∅]. split; [left | done].
Defined.

(** ** Grouping with sorting *)

Lemma concat_map_perm {A} (g : list A -> list A) (d : odict (list A)) :
  (forall l, g l ≡ₚ l) ->
  concat (map snd (map (fun kv : pyval * list A => (kv.1, g kv.2)) d))
  ≡ₚ concat (map snd d).
Proof.
  intros Hg. induction d as [|[k l] d IH]; simpl; [done|].
  by rewrite Hg, IH.
Qed.

Lemma concat_perm {A} (d d' : odict (list A)) :
  d ≡ₚ d' -> concat (map snd d) ≡ₚ concat (map snd d').
Proof.
  induction 1 as [|x l l' P IH|x y l|l1 l2 l3 P1 IH1 P2 IH2]; simpl.
  - done.
  - by rewrite IH.
  - rewrite !app_assoc. by rewrite (Permutation_app_comm y.2 x.2).
  - by etrans.
Qed.

Lemma sorted_members_perm {L : PyLower} sort g :
  (forall members,
     sorted_metadata members
       (match sort with SortBool true => SortKeys [] | _ => sort end)
     = Ok (g members)) ->
  sort_given sort = true ->
  forall members, g members ≡ₚ members.
Proof.
  intros Hg Hs members. specialize (Hg members).
  destruct sort as [|[]|s|ks]; try done; cbn [sorted_metadata] in Hg;
    injection Hg as E; rewrite <- E; apply py_sorted_perm.
Qed.

(** X7: grouping with a sort specification ([True], an attribute name
    or a list of names) loses and adds no record: the result has the
    keys of the unsorted grouping, ordered by their lower-cased
    strings, and under each key the records of that key, sorted by
    [sorted_metadata] or, for [True], in the order of the list; a
    specification that is false in a condition (an empty name, an empty
    list, [False]) leaves the grouping unsorted. *)
Theorem group_metadata_sorted {L : PyLower} (metadata : list record) (attribute : string)
    (sort : sort_spec) :
  (sort_truthy sort = false ->
     group_metadata metadata attribute sort
     = group_metadata metadata attribute SortNone)
  /\ (sort_truthy sort = true -> sort_given sort = true ->
        exists out,
          group_metadata metadata attribute sort = Ok out
          /\ map fst out
             = py_sorted str_compare normalized_group_key
                 (first_keys (map (group_key attribute) metadata))
          /\ concat (map snd out) ≡ₚ metadata
          /\ forall k members,
               (k, members) ∈ out ->
               match sort with
               | SortBool true => members = members_of attribute k metadata
               | _ => sorted_metadata (members_of attribute k metadata) sort
                      = Ok members
               end).
Proof.
  split.
  { intros Hf. unfold group_metadata. by rewrite Hf. }
  intros Ht Hs. unfold group_metadata. rewrite Ht.
  destruct (sorted_members_ok sort Hs) as (g & Hg & Hmembers).
  assert (Hwf : dict_wf (fold_left (group_step attribute) metadata [])).
  { unfold dict_wf. rewrite group_loop, map_map. cbn [fst].
    rewrite map_id. apply first_keys_wf. }
  rewrite (sorted_group_metadata_closed _ _ g Hwf Hg).
  eexists. split; [done|].
  set (sg := py_sorted _ _ (fold_left (group_step attribute) metadata [])).
  assert (P : sg ≡ₚ fold_left (group_step attribute) metadata [])
    by (apply py_sorted_perm).
  split; [|split].
  - rewrite map_map. cbn [fst]. unfold sg.
    rewrite <- (py_sorted_map str_compare normalized_group_key fst).
    rewrite group_loop, map_map. cbn [fst]. by rewrite map_id.
  - rewrite concat_map_perm by (by apply (sorted_members_perm sort)).
    rewrite (concat_perm _ _ P).
    by rewrite (group_loop_perm attribute metadata []).
  - intros k members Hin.
    apply list_elem_of_fmap in Hin as ([k' ms] & E & Hin).
    cbn [fst snd] in E. inversion E; subst k members. clear E.
    rewrite P, group_loop in Hin.
    apply list_elem_of_fmap in Hin as (k'' & E & _).
    inversion E; subst k'' ms. clear E.
    specialize (Hmembers (members_of attribute k' metadata)).
    by destruct sort as [|[]|s|ks].
Qed.

Lemma group_metadata_sorted_witness :
  exists out,
    group_metadata (L := lower_ascii)
      [ {[ "exp" := VStr "ssp"; "n" := VInt 2 ]};
        {[ "exp" := VStr "Hist" ]};
        {[ "exp" := VStr "ssp"; "n" := VInt 1 ]} ]
      "exp" (SortStr "n")
    = Ok out
    /\ map fst out = [VStr "Hist"; VStr "ssp"].
Proof.
  destruct (group_metadata_sorted (L := lower_ascii)
              [ {[ "exp" := VStr "ssp"; "n" := VInt 2 ]};
                {[ "exp" := VStr "Hist" ]};
                {[ "exp" := VStr "ssp"; "n" := VInt 1 ]} ]
              "exp" (SortStr "n")) as [_ H].
  destruct H as (out & E & K & _); [reflexivity | reflexivity |].
  exists out. split; [exact E|]. rewrite K. by vm_compute.
Defined.

(** * Further properties of the provenance logger *)

Lemma save_ok_dir work_dir name tbl w :
  node_at (files w) work_dir = Some Dir ->
  node_at (files w) (path_join work_dir name) <> Some Dir ->
  _save (Logger (path_join work_dir name) tbl) w
  = (Ok tt,
     World (<[path_join work_dir name := File tbl]> (files w)) (log_records w)).
Proof.
  intros Hd Hlog. unfold _save. cbn [_log_file table].
  rewrite dirname_join, io_bind_unfold, os_path_exists_eq, io_bind_unfold.
  assert (E : exists_in w work_dir = true) by (apply exists_in_true; eauto).
  rewrite E. cbn [negb io_pure]. by apply write_yaml_ok.
Qed.

(** The [with] statement once the logger is open. *)
Lemma with_ProvenanceLogger_run work_dir body w self :
  ProvenanceLogger_init work_dir w = (Ok self, w) ->
  with_ProvenanceLogger work_dir body w
  = with_exit (run_body body self).1
      (_save (Logger (path_join work_dir "diagnostic_provenance.yml")
                (table (run_body body self).2))) w.
Proof.
  intros E. unfold with_ProvenanceLogger. rewrite io_bind_unfold, E.
  destruct (ProvenanceLogger_init_inv _ _ _ _ E) as [_ H].
  destruct (H self eq_refl) as [Hlf _].
  pose proof (run_body_keeps_file body self) as Hkeep.
  unfold __exit__. destruct (run_body body self) as [outcome [lf tbl]].
  cbn [fst snd _log_file table] in *. by rewrite Hkeep, Hlf.
Qed.

Lemma ProvenanceLogger_init_absent work_dir w :
  node_at (files w) (path_join work_dir "diagnostic_provenance.yml") = None ->
  ProvenanceLogger_init work_dir w
  = (Ok (Logger (path_join work_dir "diagnostic_provenance.yml") (TDict ∅)), w).
Proof.
  intros E. unfold ProvenanceLogger_init.
  rewrite io_bind_unfold, os_path_exists_eq. unfold exists_in. rewrite E.
  by rewrite bool_decide_eq_false_2 by (by intros [? ?]).
Qed.

(** The table the logger starts with, read off the world. *)
Lemma ProvenanceLogger_init_table work_dir w self :
  ProvenanceLogger_init work_dir w = (Ok self, w) ->
  table self
  = match node_at (files w) (path_join work_dir "diagnostic_provenance.yml") with
    | Some (File doc) => doc
    | _ => TDict ∅
    end.
Proof.
  intros E.
  destruct (node_at (files w) (path_join work_dir "diagnostic_provenance.yml"))
    as [[|doc]|] eqn:N.
  - destruct (ProvenanceLogger_init_inv _ _ _ _ E) as [_ H].
    by destruct (H self eq_refl) as [_ Hn].
  - rewrite (ProvenanceLogger_init_file _ _ _ N) in E. by inversion E.
  - rewrite (ProvenanceLogger_init_absent _ _ N) in E. by inversion E.
Qed.

(** X8: the provenance log is append-only: an entry that is in the log
    file when the scope is entered is in the file, unchanged, when the
    scope is left, whatever the body logged or raised. *)
Theorem provenance_log_append_only (work_dir : path) (body : list stmt)
    (w : world) (t : gmap string prov_record) (f : string) (r : prov_record) :
  node_at (files w) work_dir = Some Dir ->
  node_at (files w) (path_join work_dir "diagnostic_provenance.yml")
  = Some (File (TDict t)) ->
  t !! f = Some r ->
  exists outcome w' t',
    with_ProvenanceLogger work_dir body w = (outcome, w')
    /\ node_at (files w') (path_join work_dir "diagnostic_provenance.yml")
       = Some (File (TDict t'))
    /\ t' !! f = Some r.
Proof.
  intros Hd Hf Ht.
  pose proof (ProvenanceLogger_init_file _ _ _ Hf) as Ei.
  rewrite (with_ProvenanceLogger_run _ _ _ _ Ei).
  destruct (run_body_preserves body
              (Logger (path_join work_dir "diagnostic_provenance.yml") (TDict t))
              t f r eq_refl Ht) as (t' & Ht' & Hf').
  unfold with_exit. rewrite save_ok_dir; [|done|by rewrite Hf].
  eexists _, _, t'. split; [done|]. cbn [files].
  split; [|done]. by rewrite node_at_insert_eq, Ht'.
Qed.

Lemma provenance_log_append_only_witness :
  exists outcome w' t',
    with_ProvenanceLogger ["work"]
      [SLog "a.nc" ∅; SLog "b.nc" ∅]
      (World {[ ["work"] := Dir;
                ["work"; "diagnostic_provenance.yml"]
                  := File (TDict {[ "a.nc" := {[ "caption" := PStr "A" ]} ]}) ]}
         [])
    = (outcome, w')
    /\ node_at (files w') (path_join ["work"] "diagnostic_provenance.yml")
       = Some (File (TDict t'))
    /\ t' !! "a.nc" = Some {[ "caption" := PStr "A" ]}.
Proof.
  apply (provenance_log_append_only ["work"] _ _
           {[ "a.nc" := {[ "caption" := PStr "A" ]} ]}).
  - reflexivity.
  - reflexivity.
  - reflexivity.
Defined.

(** X9: the log file carries the rule of one entry per output file
    from one scope to the next: a filename logged with success in one
    scope cannot be logged in a later scope of the same run; the call
    raises [KeyError] and the file keeps the first record. *)
Theorem provenance_second_session (work_dir : path) (body1 body2 : list stmt)
    (w : world) (self : ProvenanceLogger) (f : string) (r r' : prov_record) :
  (forall q doc, q `prefix_of` work_dir ->
                 node_at (files w) q <> Some (File doc)) ->
  ProvenanceLogger_init work_dir w = (Ok self, w) ->
  (f, r) ∈ successfully_logged body1 self ->
  exists outcome1 w1 msg w2 t,
    with_ProvenanceLogger work_dir body1 w = (outcome1, w1)
    /\ with_ProvenanceLogger work_dir (SLog f r' :: body2) w1
       = (Raise (KeyError msg), w2)
    /\ node_at (files w2) (path_join work_dir "diagnostic_provenance.yml")
       = Some (File (TDict t))
    /\ t !! f = Some r.
Proof.
  intros Hfile Ei Hlog.
  destruct (ProvenanceLogger_init_inv _ _ _ _ Ei) as [_ H].
  destruct (H self eq_refl) as [_ Hnd]. clear H.
  destruct (run_body_logged _ _ _ _ Hlog) as (t & Ht & Hf).
  destruct (save_ok work_dir "diagnostic_provenance.yml"
              (table (run_body body1 self).2) w Hfile Hnd)
    as (w1 & Es & Hd1 & Hf1 & _ & _).
  rewrite Ht in Hf1.
  pose proof (ProvenanceLogger_init_file _ _ _ Hf1) as Ei2.
  eexists _, w1, _, _, t.
  split.
  { rewrite (with_ProvenanceLogger_run _ _ _ _ Ei). unfold with_exit.
    by rewrite Es. }
  split.
  { rewrite (with_ProvenanceLogger_run _ _ _ _ Ei2). cbn [run_body].
    rewrite (log_present _ _ _ t) by (cbn [table]; eauto).
    cbn [fst snd table]. unfold with_exit.
    rewrite save_ok_dir; [done | done | by rewrite Hf1]. }
  cbn [files]. by rewrite node_at_insert_eq.
Qed.

Lemma provenance_second_session_witness :
  exists outcome1 w1 msg w2 t,
    with_ProvenanceLogger ["work"] [SLog "a.nc" {[ "caption" := PStr "1" ]}]
      (World ∅ [])
    = (outcome1, w1)
    /\ with_ProvenanceLogger ["work"] [SLog "a.nc" {[ "caption" := PStr "2" ]}]
         w1
       = (Raise (KeyError msg), w2)
    /\ node_at (files w2) (path_join ["work"] "diagnostic_provenance.yml")
       = Some (File (TDict t))
    /\ t !! "a.nc" = Some {[ "caption" := PStr "1" ]}.
Proof.
  apply (provenance_second_session ["work"] _ [] (World ∅ [])
           (Logger ["work"; "diagnostic_provenance.yml"] (TDict ∅))).
  - intros q doc _. by destruct q as [|a q].
  - reflexivity.
  - assert (E : successfully_logged
                  [SLog "a.nc" {[ "caption" := PStr "1" ]}]
                  (Logger ["work"; "diagnostic_provenance.yml"] (TDict ∅))
                = [("a.nc", {[ "caption" := PStr "1" ]})]) by reflexivity.
    rewrite E. left.
Defined.

(** X10: when the work directory is a regular file, leaving the scope
    raises [NotADirectoryError] in place of the outcome of the body,
    and nothing is written: the entries logged in the scope are lost. *)
Theorem provenance_work_dir_is_file (work_dir : path) (body : list stmt)
    (w : world) (doc : pytable) :
  fs_wf (files w) ->
  node_at (files w) work_dir = Some (File doc) ->
  with_ProvenanceLogger work_dir body w
  = (Raise (NotADirectoryError
              (path_join work_dir "diagnostic_provenance.yml")), w).
Proof.
  intros Hwf Hd.
  assert (Hn : node_at (files w)
                 (path_join work_dir "diagnostic_provenance.yml") = None).
  { destruct (node_at (files w) (path_join work_dir "diagnostic_provenance.yml"))
      as [n|] eqn:E; [|done].
    unfold path_join in E. rewrite node_at_snoc in E.
    apply Hwf in E. unfold dirname in E. rewrite removelast_last in E.
    congruence. }
  rewrite (with_ProvenanceLogger_run _ _ _ _
             (ProvenanceLogger_init_absent _ _ Hn)).
  unfold with_exit, _save. cbn [_log_file table].
  rewrite dirname_join, io_bind_unfold, os_path_exists_eq, io_bind_unfold.
  assert (E : exists_in w work_dir = true) by (apply exists_in_true; eauto).
  rewrite E. cbn [negb io_pure]. unfold write_yaml.
  by rewrite Hn, dirname_join, Hd.
Qed.

Lemma provenance_work_dir_is_file_witness :
  with_ProvenanceLogger ["work"] [SLog "a.nc" ∅]
    (World {[ ["work"] := File TNone ]} [])
  = (Raise (NotADirectoryError ["work"; "diagnostic_provenance.yml"]),
     World {[ ["work"] := File TNone ]} []).
Proof.
  apply (provenance_work_dir_is_file ["work"] _ _ TNone).
  - intros p n H. cbn [files] in *.
    destruct (decide (p = ["work"])) as [->|Hne]; [done|].
    by rewrite lookup_singleton_ne in H.
  - by vm_compute.
Defined.

Lemma run_body_none body self :
  table self = TNone ->
  table (run_body body self).2 = TNone /\ successfully_logged body self = [].
Proof.
  revert self. induction body as [|[f r|f r|e] body IH]; intros self Ht;
    simpl; try done.
  - assert (E : log f r self = (Raise (TypeError
               "argument of type 'NoneType' is not iterable"), self))
      by (unfold log; by rewrite Ht).
    by rewrite E.
  - assert (E : log f r self = (Raise (TypeError
               "argument of type 'NoneType' is not iterable"), self))
      by (unfold log; by rewrite Ht).
    rewrite E. simpl. by apply IH.
Qed.

(** X11: a log file that holds an empty YAML document gives the logger
    the table [None]: every call of [log] raises [TypeError], nothing
    is logged in the scope and the table stays [None]. *)
Theorem provenance_empty_document (work_dir : path) (body : list stmt)
    (w : world) :
  node_at (files w) (path_join work_dir "diagnostic_provenance.yml")
  = Some (File TNone) ->
  exists self,
    ProvenanceLogger_init work_dir w = (Ok self, w)
    /\ (forall f r, exists msg, log f r self = (Raise (TypeError msg), self))
    /\ successfully_logged body self = []
    /\ table (run_body body self).2 = TNone.
Proof.
  intros Hf. eexists. split; [by apply ProvenanceLogger_init_file|].
  split; [by eexists|].
  destruct (run_body_none body
              (Logger (path_join work_dir "diagnostic_provenance.yml") TNone)
              eq_refl) as [H1 H2].
  done.
Qed.

Lemma provenance_empty_document_witness :
  exists self,
    ProvenanceLogger_init ["work"]
      (World {[ ["work"] := Dir;
                ["work"; "diagnostic_provenance.yml"] := File TNone ]} [])
    = (Ok self,
       World {[ ["work"] := Dir;
                ["work"; "diagnostic_provenance.yml"] := File TNone ]} [])
    /\ successfully_logged [SLog "a.nc" ∅] self = [].
Proof.
  destruct (provenance_empty_document ["work"] [SLog "a.nc" ∅]
              (World {[ ["work"] := Dir;
                        ["work"; "diagnostic_provenance.yml"] := File TNone ]}
                 [])) as (self & E & _ & H & _).
  - by vm_compute.
  - by exists self.
Defined.

(** X12: two attempts to log different filenames, each with its error
    caught, can be made in either order: the table and the rest of the
    scope are the same. *)
Theorem try_log_commute (self : ProvenanceLogger) (f1 f2 : string)
    (r1 r2 : prov_record) (rest : list stmt) :
  f1 <> f2 ->
  run_body (STryLog f1 r1 :: STryLog f2 r2 :: rest) self
  = run_body (STryLog f2 r2 :: STryLog f1 r1 :: rest) self.
Proof.
  intros Hne. cbn [run_body]. f_equal.
  unfold log. destruct (table self) as [|t] eqn:Ht; cbn [snd]; rewrite ?Ht.
  - done.
  - destruct (bool_decide (is_Some (t !! f1))) eqn:E1,
             (bool_decide (is_Some (t !! f2))) eqn:E2;
      cbn [snd table _log_file]; rewrite ?Ht, ?E1, ?E2; cbn [snd];
      rewrite ?lookup_insert_ne by done; rewrite ?E1, ?E2; try done.
    cbn [snd _log_file]. by rewrite insert_insert_ne.
Qed.

Lemma try_log_commute_witness :
  run_body [STryLog "a.nc" ∅; STryLog "b.nc" ∅] (Logger ["work"] (TDict ∅))
  = run_body [STryLog "b.nc" ∅; STryLog "a.nc" ∅] (Logger ["work"] (TDict ∅)).
Proof. by apply try_log_commute. Defined.

(** * Further properties of the output-directory set-up *)

(** ** Well-formed file systems *)

Lemma prefix_snoc_inv (q p : path) c :
  q `prefix_of` p ++ [c] -> q = p ++ [c] \/ q `prefix_of` p.
Proof.
  intros [k Hk]. destruct k as [|a k _] using rev_ind.
  - left. by rewrite app_nil_r in Hk.
  - right. rewrite app_assoc in Hk. apply app_inj_tail in Hk as [-> _].
    by apply prefix_app_r.
Qed.

Lemma fs_wf_prefix fs p q :
  fs_wf fs -> is_Some (node_at fs p) -> q `prefix_of` p -> q <> p ->
  node_at fs q = Some Dir.
Proof.
  intros Hwf. revert q. induction p as [|c p IH] using rev_ind;
    intros q Hp Hq Hne.
  - apply prefix_nil_inv in Hq. done.
  - apply prefix_snoc_inv in Hq as [->|Hq]; [done|].
    destruct Hp as [n Hn]. rewrite node_at_snoc in Hn.
    apply Hwf in Hn. unfold dirname in Hn. rewrite removelast_last in Hn.
    destruct (decide (q = p)) as [->|Hqp]; [done|].
    apply IH; [by rewrite Hn | done | done].
Qed.

Lemma fs_wf_insert fs p c n :
  fs_wf fs -> node_at fs p = Some Dir -> fs !! (p ++ [c]) = None ->
  fs_wf (<[p ++ [c] := n]> fs).
Proof.
  intros Hwf Hd Hnone q m Hq.
  assert (Hkeep : forall d, node_at fs d = Some Dir ->
            node_at (<[p ++ [c] := n]> fs) d = Some Dir).
  { intros d Hdd. destruct d as [|a d]; [done|]. cbn [node_at] in *.
    rewrite lookup_insert_ne; [done|]. intros E. rewrite E in Hnone.
    by pose proof (eq_trans (eq_sym Hdd) Hnone). }
  destruct (decide (q = p ++ [c])) as [->|Hne].
  - unfold dirname. rewrite removelast_last. by apply Hkeep.
  - rewrite lookup_insert_ne in Hq by done. apply Hkeep. by eapply Hwf.
Qed.

Lemma os_mkdir_ok_inv p w w' :
  os_mkdir p w = (Ok tt, w') ->
  exists p0 c, p = p0 ++ [c]
    /\ files w !! p = None
    /\ node_at (files w) p0 = Some Dir
    /\ w' = World (<[p := Dir]> (files w)) (log_records w).
Proof.
  unfold os_mkdir. destruct (node_at (files w) p) as [n|] eqn:E; [done|].
  destruct p as [|c p _] using rev_ind; [done|].
  unfold dirname. rewrite removelast_last.
  destruct (node_at (files w) p) as [[|doc]|] eqn:Ed; try done.
  intros H. inversion H. exists p, c. rewrite node_at_snoc in E. done.
Qed.

Lemma os_mkdir_wf p w w' :
  fs_wf (files w) -> os_mkdir p w = (Ok tt, w') ->
  fs_wf (files w') /\ node_at (files w') p = Some Dir.
Proof.
  intros Hwf E. apply os_mkdir_ok_inv in E as (p0 & c & -> & Hn & Hd & ->).
  cbn [files]. split; [by apply fs_wf_insert|].
  rewrite node_at_snoc. apply lookup_insert_eq.
Qed.

Lemma makedirs_rev_wf rp w w' :
  fs_wf (files w) -> makedirs_rev rp w = (Ok tt, w') ->
  fs_wf (files w') /\ node_at (files w') (rev rp) = Some Dir.
Proof.
  revert w w'. induction rp as [|c rhead IH]; intros w w' Hwf.
  - apply os_mkdir_wf. done.
  - cbn [makedirs_rev]. rewrite io_bind_unfold, os_path_exists_eq.
    rewrite io_bind_unfold.
    destruct (exists_in w (rev rhead)); cbn [negb io_pure].
    + by apply os_mkdir_wf.
    + destruct (makedirs_rev rhead w) as [[[]|e] w1] eqn:E1; [|done].
      destruct (IH _ _ Hwf E1) as [Hwf1 _]. by apply os_mkdir_wf.
Qed.

Lemma os_makedirs_wf p w w' :
  fs_wf (files w) -> os_makedirs p w = (Ok tt, w') ->
  fs_wf (files w') /\ node_at (files w') p = Some Dir.
Proof.
  intros Hwf E. apply makedirs_rev_wf in E; [|done].
  by rewrite rev_involutive in E.
Qed.

Lemma rmtree_lookup (fs : gmap path node) (d q : path) :
  filter (fun qn : path * node => ~ d `prefix_of` qn.1) fs !! q
  = if decide (d `prefix_of` q) then None else fs !! q.
Proof.
  destruct (decide (d `prefix_of` q)) as [H|H].
  - apply map_lookup_filter_None. right. intros n _. simpl. tauto.
  - destruct (fs !! q) as [n|] eqn:E.
    + apply map_lookup_filter_Some. by split.
    + apply map_lookup_filter_None. by left.
Qed.

Lemma rmtree_wf (fs : gmap path node) (d : path) :
  fs_wf fs -> fs_wf (filter (fun qn : path * node => ~ d `prefix_of` qn.1) fs).
Proof.
  intros Hwf q n. rewrite rmtree_lookup.
  destruct (decide (d `prefix_of` q)) as [|Hq]; [done|]. intros E.
  apply Hwf in E. destruct (dirname q) as [|a p] eqn:Ed; [done|].
  simpl in *. rewrite rmtree_lookup.
  destruct (decide (d `prefix_of` a :: p)) as [Hp|]; [|done].
  exfalso. apply Hq. etrans; [exact Hp|]. rewrite <- Ed.
  unfold dirname. destruct q as [|c q _] using rev_ind; [done|].
  rewrite removelast_last. by apply prefix_app_r.
Qed.

Lemma shutil_rmtree_wf d w w' :
  fs_wf (files w) -> shutil_rmtree d w = (Ok tt, w') -> fs_wf (files w').
Proof.
  intros Hwf. unfold shutil_rmtree.
  destruct (node_at (files w) d) as [[|doc]|]; try done.
  intros E. inversion E. by apply rmtree_wf.
Qed.

Lemma remove_loop_wf ds w w' :
  fs_wf (files w) ->
  for_each_io
    (fun output_directory =>
       _ ← logger_emit INFO ("Removing " +:+ path_str output_directory);
       shutil_rmtree output_directory) ds w = (Ok tt, w') ->
  fs_wf (files w').
Proof.
  revert w. induction ds as [|d ds IH]; intros w Hwf; simpl.
  - unfold io_pure. intros E. by inversion E; subst.
  - rewrite io_bind_unfold, io_bind_unfold. cbn [logger_emit].
    destruct (shutil_rmtree d _) as [[[]|e] w1] eqn:E; [|done].
    apply IH. by eapply shutil_rmtree_wf; [|exact E].
Qed.

(** Without [--ignore-existing], making a directory and then one of its
    ancestors, or the same directory again, raises. *)
Lemma create_nested_raises (work plot : path) w :
  fs_wf (files w) -> plot `prefix_of` work ->
  is_ok (for_each_io
           (fun output_directory =>
              _ ← logger_emit INFO ("Creating " +:+ path_str output_directory);
              skip ← (if false then os_path_exists output_directory
                      else io_pure false);
              if skip : bool then io_pure tt else os_makedirs output_directory)
           [work; plot] w).1 = false.
Proof.
  intros Hwf Hpre. cbn [for_each_io].
  rewrite io_bind_unfold, io_bind_unfold. cbn [logger_emit].
  rewrite io_bind_unfold. cbn [io_pure].
  destruct (os_makedirs work _) as [[[]|e] w1] eqn:E; [|done].
  apply os_makedirs_wf in E as [Hwf1 Hd]; [|done].
  assert (Hp : exists_in w1 plot = true).
  { apply exists_in_true. destruct (decide (plot = work)) as [->|Hne]; [eauto|].
    exists Dir. eapply fs_wf_prefix; eauto. }
  destruct (create_loop_raises [plot] w1) as [R _]; [|exact R].
  exists plot. split; [left | done].
Qed.

(** X13: when both kinds of output are written and the plot directory
    is the work directory or one of its ancestors, [run_diagnostic]
    without [--ignore-existing] never reaches [yield]: creating the
    work directory makes the plot directory exist, and creating that
    one raises. *)
Theorem run_diagnostic_nested_dirs (cfg : config) (args : arguments)
    (w : world) :
  fs_wf (files w) ->
  write_netcdf cfg = true -> write_plots cfg = true ->
  plot_dir cfg `prefix_of` work_dir cfg ->
  ignore_existing args = false ->
  is_ok (run_diagnostic cfg args w).1 = false.
Proof.
  intros Hwf Hn Hp Hpre Hig. unfold run_diagnostic, output_directories.
  rewrite Hn, Hp, Hig. cbn [app negb].
  rewrite io_bind_unfold, filter_io_exists, io_bind_unfold.
  set (loop := for_each_io _ [work_dir cfg; plot_dir cfg]).
  assert (Hloop : forall w1, fs_wf (files w1) -> is_ok (loop w1).1 = false).
  { intros w1 Hwf1. by apply create_nested_raises. }
  destruct (List.filter (exists_in w) _) as [|d existing].
  - cbn [io_pure]. rewrite io_bind_unfold.
    specialize (Hloop w Hwf). by destruct (loop w) as [[[]|e] w2].
  - destruct (force args).
    + destruct (for_each_io _ (d :: existing) w) as [[[]|e] w1] eqn:E; [|done].
      apply remove_loop_wf in E; [|done].
      rewrite io_bind_unfold. specialize (Hloop w1 E).
      by destruct (loop w1) as [[[]|e] w2].
    + cbn [logger_emit]. rewrite io_bind_unfold.
      set (w1 := World _ _). specialize (Hloop w1 Hwf).
      by destruct (loop w1) as [[[]|e] w2].
Qed.

Lemma run_diagnostic_nested_dirs_witness :
  is_ok (run_diagnostic (Config true true ["run"; "out"] ["run"; "out"])
           (Arguments false false) (World ∅ [])).1 = false.
Proof.
  apply run_diagnostic_nested_dirs; try done;
    intros p n H; by rewrite lookup_empty in H.
Defined.

Lemma shutil_rmtree_dir d w :
  node_at (files w) d = Some Dir ->
  shutil_rmtree d w
  = (Ok tt,
     World (filter (fun qn : path * node => ~ d `prefix_of` qn.1) (files w))
           (log_records w)).
Proof. intros H. unfold shutil_rmtree. by rewrite H. Qed.

Lemma shutil_rmtree_missing d w :
  node_at (files w) d = None ->
  shutil_rmtree d w = (Raise (FileNotFoundError d), w).
Proof. intros H. unfold shutil_rmtree. by rewrite H. Qed.

Lemma node_at_rmtree (fs : gmap path node) (d q : path) :
  q <> [] ->
  node_at (filter (fun qn : path * node => ~ d `prefix_of` qn.1) fs) q
  = if decide (d `prefix_of` q) then None else node_at fs q.
Proof.
  intros Hq. destruct q as [|a q]; [done|]. cbn [node_at].
  apply rmtree_lookup.
Qed.

(** X14: with [--force], when the plot directory lies in the work
    directory (or is the work directory) and both exist, removing the
    work directory removes the plot directory with it, and the removal
    of the plot directory raises [FileNotFoundError]: the run stops
    with the work directory removed and nothing created. *)
Theorem run_diagnostic_force_nested (cfg : config) (args : arguments)
    (w : world) :
  force args = true ->
  write_netcdf cfg = true -> write_plots cfg = true ->
  work_dir cfg `prefix_of` plot_dir cfg -> plot_dir cfg <> [] ->
  node_at (files w) (work_dir cfg) = Some Dir ->
  exists_in w (plot_dir cfg) = true ->
  run_diagnostic cfg args w
  = (Raise (FileNotFoundError (plot_dir cfg)),
     World (filter (fun qn : path * node => ~ work_dir cfg `prefix_of` qn.1)
              (files w))
           (log_records w
            ++ [(INFO, "Removing " +:+ path_str (work_dir cfg));
                (INFO, "Removing " +:+ path_str (plot_dir cfg))])).
Proof.
  intros Hforce Hn Hp Hpre Hne Hd Hpl.
  assert (Hw : exists_in w (work_dir cfg) = true)
    by (apply exists_in_true; eauto).
  unfold run_diagnostic, output_directories. rewrite Hn, Hp, Hforce.
  cbn [app]. rewrite io_bind_unfold, filter_io_exists.
  cbn [List.filter]. rewrite Hw, Hpl.
  rewrite io_bind_unfold. cbn [for_each_io].
  rewrite io_bind_unfold, io_bind_unfold. cbn [logger_emit].
  rewrite shutil_rmtree_dir by done. cbn [files log_records].
  rewrite io_bind_unfold, io_bind_unfold. cbn [logger_emit].
  rewrite shutil_rmtree_missing.
  - cbn [files log_records]. by rewrite <- app_assoc.
  - cbn [files]. rewrite node_at_rmtree by done. by rewrite decide_True.
Qed.

Lemma run_diagnostic_force_nested_witness :
  (run_diagnostic (Config true true ["run"] ["run"; "plots"])
     (Arguments true false)
     (World {[ ["run"] := Dir; ["run"; "plots"] := Dir ]} [])).1
  = Raise (FileNotFoundError ["run"; "plots"]).
Proof.
  rewrite run_diagnostic_force_nested; try done.
  by exists ["plots"].
Defined.

(** ** Creating the output directories *)

Lemma os_mkdir_new p w w' :
  os_mkdir p w = (Ok tt, w') ->
  log_records w' = log_records w
  /\ forall q n, files w' !! q = Some n ->
       files w !! q = Some n \/ (n = Dir /\ q = p /\ q <> []).
Proof.
  intros E. apply os_mkdir_ok_inv in E as (p0 & c & -> & Hn & Hd & ->).
  split; [done|]. cbn [files]. intros q n Hq.
  destruct (decide (q = p0 ++ [c])) as [->|Hne].
  - rewrite lookup_insert_eq in Hq. inversion Hq. right.
    repeat split. by destruct p0.
  - rewrite lookup_insert_ne in Hq by done. by left.
Qed.

(** [os.makedirs] adds directories on the path it is given, and
    nothing else. *)
Lemma makedirs_rev_new rp w w' :
  makedirs_rev rp w = (Ok tt, w') ->
  log_records w' = log_records w
  /\ forall q n, files w' !! q = Some n ->
       files w !! q = Some n
       \/ (n = Dir /\ q `prefix_of` rev rp /\ q <> []).
Proof.
  revert w w'. induction rp as [|c rhead IH]; intros w w'.
  - cbn [makedirs_rev]. intros E. by apply os_mkdir_ok_inv in E as ([|] & ? & ? & _).
  - cbn [makedirs_rev]. rewrite io_bind_unfold, os_path_exists_eq.
    rewrite io_bind_unfold.
    destruct (exists_in w (rev rhead)); cbn [negb io_pure].
    + intros E. apply os_mkdir_new in E as [L N]. split; [done|].
      intros q n Hq. destruct (N q n Hq) as [?|(-> & -> & ?)]; [by left|].
      by right.
    + destruct (makedirs_rev rhead w) as [[[]|e] w1] eqn:E1; [|done].
      destruct (IH _ _ E1) as [L1 N1].
      intros E. apply os_mkdir_new in E as [L N]. split; [congruence|].
      intros q n Hq. destruct (N q n Hq) as [Hq1|(-> & -> & ?)].
      * destruct (N1 q n Hq1) as [?|(-> & Hp & ?)]; [by left|].
        right. repeat split; [|done]. cbn [rev]. by apply prefix_app_r.
      * by right.
Qed.

Lemma create_loop_unfold (ig : bool) d ds w :
  for_each_io
    (fun output_directory =>
       _ ← logger_emit INFO ("Creating " +:+ path_str output_directory);
       skip ← (if ig then os_path_exists output_directory else io_pure false);
       if skip : bool then io_pure tt else os_makedirs output_directory)
    (d :: ds) w
  = let w1 := World (files w)
                (log_records w ++ [(INFO, "Creating " +:+ path_str d)]) in
    match (if ig && exists_in w1 d then (Ok tt, w1) else os_makedirs d w1) with
    | (Ok _, w2) =>
        for_each_io
          (fun output_directory =>
             _ ← logger_emit INFO ("Creating " +:+ path_str output_directory);
             skip ← (if ig then os_path_exists output_directory
                     else io_pure false);
             if skip : bool then io_pure tt else os_makedirs output_directory)
          ds w2
    | (Raise e, w2) => (Raise e, w2)
    end.
Proof.
  cbn [for_each_io]. rewrite io_bind_unfold, io_bind_unfold.
  cbn [logger_emit]. rewrite io_bind_unfold.
  destruct ig; cbn [andb].
  - rewrite os_path_exists_eq. by destruct (exists_in _ d).
  - done.
Qed.

Lemma create_loop_extends (ig : bool) ds w :
  extends w
    (for_each_io
       (fun output_directory =>
          _ ← logger_emit INFO ("Creating " +:+ path_str output_directory);
          skip ← (if ig then os_path_exists output_directory
                  else io_pure false);
          if skip : bool then io_pure tt else os_makedirs output_directory)
       ds w).2.
Proof.
  revert w. induction ds as [|d ds IH]; intros w.
  - apply extends_refl.
  - rewrite create_loop_unfold. cbn zeta.
    set (w1 := World _ _).
    assert (X1 : extends w w1) by (apply (logger_emit_extends INFO _ w)).
    destruct (ig && exists_in w1 d).
    + eapply extends_trans; [exact X1 | apply IH].
    + pose proof (os_makedirs_extends d w1) as X2.
      destruct (os_makedirs d w1) as [[[]|e] w2]; simpl in X2.
      * eapply extends_trans; [exact X1|].
        eapply extends_trans; [exact X2 | apply IH].
      * by eapply extends_trans.
Qed.

Lemma create_loop_skip ds w :
  (forall d, d ∈ ds -> exists_in w d = true) ->
  for_each_io
    (fun output_directory =>
       _ ← logger_emit INFO ("Creating " +:+ path_str output_directory);
       skip ← (if true then os_path_exists output_directory
               else io_pure false);
       if skip : bool then io_pure tt else os_makedirs output_directory)
    ds w
  = (Ok tt,
     World (files w)
       (log_records w
        ++ map (fun d => (INFO, "Creating " +:+ path_str d)) ds)).
Proof.
  revert w. induction ds as [|d ds IH]; intros w Hex.
  - cbn [for_each_io map io_pure]. rewrite app_nil_r. by destruct w.
  - rewrite (create_loop_unfold true). cbn zeta. cbn [andb].
    assert (E : exists_in
                  (World (files w)
                     (log_records w ++ [(INFO, "Creating " +:+ path_str d)])) d
                = true) by (apply Hex; left).
    rewrite E, IH.
    + cbn [files log_records map]. by rewrite <- app_assoc.
    + intros d' Hd'. apply (Hex d'). by right.
Qed.

(** X15: without [--force], [run_diagnostic] never removes or changes
    a file or a directory, and never drops a log record, whatever else
    happens; with [--ignore-existing] and every output directory in
    place it yields the configuration and leaves the file system as it
    is, logging one line per directory and no error. *)
Theorem run_diagnostic_ignore_existing (cfg : config) (args : arguments)
    (w : world) :
  force args = false ->
  extends w (run_diagnostic cfg args w).2
  /\ (ignore_existing args = true ->
      (forall d, d ∈ output_directories cfg -> exists_in w d = true) ->
      run_diagnostic cfg args w
      = (Ok cfg,
         World (files w)
           (log_records w
            ++ map (fun d => (INFO, "Creating " +:+ path_str d))
                 (output_directories cfg)))).
Proof.
  intros Hforce. unfold run_diagnostic. rewrite Hforce.
  rewrite io_bind_unfold, filter_io_exists, io_bind_unfold. split.
  - set (pre := match List.filter _ _ with [] => _ | _ => _ end).
    assert (X1 : extends w (pre w).2 /\ is_ok (pre w).1 = true).
    { unfold pre. destruct (List.filter _ _); [split; [apply extends_refl|done]|].
      destruct (negb (ignore_existing args)).
      - split; [apply logger_emit_extends | done].
      - split; [apply extends_refl | done]. }
    destruct X1 as [X1 Hok]. destruct (pre w) as [[[]|e] w1]; [|done].
    cbn [snd] in X1. rewrite io_bind_unfold.
    pose proof (create_loop_extends (ignore_existing args)
                  (output_directories cfg) w1) as X2.
    destruct (for_each_io _ (output_directories cfg) w1) as [[[]|e] w2];
      cbn [snd io_pure] in *; by eapply extends_trans.
  - intros Hig Hex. rewrite Hig. cbn [negb].
    assert (P : (match List.filter (exists_in w) (output_directories cfg) with
                 | [] => io_pure tt
                 | _ :: _ => io_pure tt
                 end) w = (Ok tt, w)).
    { by destruct (List.filter _ _). }
    rewrite P, io_bind_unfold, create_loop_skip by done. done.
Qed.

Lemma run_diagnostic_ignore_existing_witness :
  run_diagnostic (Config true false ["work"] ["plots"]) (Arguments false true)
    (World {[ ["work"] := Dir ]} [])
  = (Ok (Config true false ["work"] ["plots"]),
     World {[ ["work"] := Dir ]} [(INFO, "Creating /work")]).
Proof.
  destruct (run_diagnostic_ignore_existing
              (Config true false ["work"] ["plots"]) (Arguments false true)
              (World {[ ["work"] := Dir ]} [])) as [_ H]; [done|].
  rewrite H; [done | done |].
  intros d Hd. apply elem_of_cons in Hd as [->|Hd]; [done|].
  by apply not_elem_of_nil in Hd.
Defined.

Lemma io_pure_bind {A B} (a : A) (k : A -> io B) w :
  (io_pure a ≫= k) w = k a w.
Proof. done. Qed.

Lemma os_makedirs_ok p w :
  exists_in w p = false ->
  (forall q doc, q `prefix_of` p -> node_at (files w) q <> Some (File doc)) ->
  exists w',
    os_makedirs p w = (Ok tt, w')
    /\ node_at (files w') p = Some Dir
    /\ log_records w' = log_records w
    /\ files w ⊆ files w'
    /\ (forall q, ~ q `prefix_of` p -> files w' !! q = files w !! q)
    /\ (forall q n, files w' !! q = Some n ->
          files w !! q = Some n \/ (n = Dir /\ q `prefix_of` p /\ q <> [])).
Proof.
  intros Hex Hfile.
  destruct (makedirs_rev_ok (rev p) w) as (w' & E & Hd & Hl & Hk).
  { by rewrite rev_involutive. }
  { by rewrite rev_involutive. }
  rewrite rev_involutive in Hd, Hk.
  exists w'. split; [exact E|]. split; [done|]. split; [done|].
  pose proof (makedirs_rev_extends (rev p) w) as X. rewrite E in X.
  split; [apply X|]. split; [done|].
  apply makedirs_rev_new in E as [_ N]. by rewrite rev_involutive in N.
Qed.

(** The loop makes every directory of the list when none of them is
    there, no part of their paths is a regular file, and no directory
    comes after one that lies in it. *)
Lemma create_loop_ok ds w :
  (forall d, d ∈ ds -> exists_in w d = false) ->
  (forall d q doc, d ∈ ds -> q `prefix_of` d ->
                   node_at (files w) q <> Some (File doc)) ->
  ForallOrdPairs (fun d1 d2 : path => ~ d2 `prefix_of` d1) ds ->
  exists w',
    for_each_io
      (fun output_directory =>
         _ ← logger_emit INFO ("Creating " +:+ path_str output_directory);
         skip ← (if false then os_path_exists output_directory
                 else io_pure false);
         if skip : bool then io_pure tt else os_makedirs output_directory)
      ds w
    = (Ok tt, w')
    /\ files w ⊆ files w'
    /\ (forall d, d ∈ ds -> node_at (files w') d = Some Dir)
    /\ (forall q n, files w' !! q = Some n ->
          files w !! q = Some n
          \/ (n = Dir /\ q <> [] /\ exists d, d ∈ ds /\ q `prefix_of` d))
    /\ log_records w'
       = log_records w ++ map (fun d => (INFO, "Creating " +:+ path_str d)) ds.
Proof.
  revert w. induction ds as [|d ds IH]; intros w Hex Hfile Hord.
  - exists w. cbn [for_each_io map io_pure]. rewrite app_nil_r.
    repeat split; try done.
    + intros d Hd. by apply not_elem_of_nil in Hd.
    + intros q n Hq. by left.
  - rewrite (create_loop_unfold false). cbn zeta. cbn [andb].
    set (w1 := World (files w) _).
    destruct (os_makedirs_ok d w1) as (w2 & E & Hd & Hl & Hsub & Hk & Hnew).
    { apply (Hex d). left. }
    { intros q doc Hq. apply (Hfile d q doc); [left | done]. }
    rewrite E. inversion Hord as [|? ? Hd_ord Hord']; subst.
    rewrite Forall_forall in Hd_ord.
    destruct (IH w2) as (w' & E' & Hsub' & Hd' & Hnew' & Hl').
    { intros d' Hin. apply exists_in_false.
      assert (Hne : d' <> []).
      { intros ->. by pose proof (Hex [] ltac:(by right)). }
      destruct d' as [|a d']; [done|]. cbn [node_at].
      rewrite Hk by (by apply Hd_ord).
      pose proof (Hex (a :: d') ltac:(by right)) as X.
      by apply exists_in_false in X. }
    { intros d' q doc Hin Hq Hn.
      destruct q as [|a q]; [done|]. cbn [node_at] in Hn.
      destruct (Hnew _ _ Hn) as [Hold|(? & _)]; [|done].
      apply (Hfile d' (a :: q) doc); [by right | done | done]. }
    { done. }
    exists w'. split; [done|]. split; [by etrans|].
    split; [|split].
    + intros d' Hin. apply elem_of_cons in Hin as [->|Hin]; [|by apply Hd'].
      destruct d as [|a d]; [done|]. cbn [node_at] in *.
      by eapply lookup_weaken.
    + intros q n Hq. destruct (Hnew' q n Hq) as [Hq2|(-> & Hne & d' & Hin & Hp)].
      * destruct (Hnew q n Hq2) as [?|(-> & Hp & Hne)]; [by left|].
        right. repeat split; [done|]. exists d. split; [left | done].
      * right. repeat split; [done|]. exists d'. split; [by right | done].
    + rewrite Hl', Hl. subst w1. cbn [map log_records].
      by rewrite <- app_assoc.
Qed.

(** X16: on a first run, when no output directory exists, no part of
    their paths is a regular file and the plot directory is not the
    work directory or an ancestor of it, [run_diagnostic] yields the
    configuration; every output directory is a directory afterwards;
    what was there is kept, and what is new is a directory on the path
    of an output directory; no error is logged. *)
Theorem run_diagnostic_first_run (cfg : config) (args : arguments) (w : world) :
  ignore_existing args = false ->
  (forall d, d ∈ output_directories cfg -> exists_in w d = false) ->
  (forall d q doc, d ∈ output_directories cfg -> q `prefix_of` d ->
                   node_at (files w) q <> Some (File doc)) ->
  ForallOrdPairs (fun d1 d2 : path => ~ d2 `prefix_of` d1)
    (output_directories cfg) ->
  exists w',
    run_diagnostic cfg args w = (Ok cfg, w')
    /\ (forall d, d ∈ output_directories cfg ->
                  node_at (files w') d = Some Dir)
    /\ files w ⊆ files w'
    /\ (forall q n, files w' !! q = Some n ->
          files w !! q = Some n
          \/ (n = Dir /\ q <> []
              /\ exists d, d ∈ output_directories cfg /\ q `prefix_of` d))
    /\ log_records w'
       = log_records w
         ++ map (fun d => (INFO, "Creating " +:+ path_str d))
              (output_directories cfg).
Proof.
  intros Hig Hex Hfile Hord. unfold run_diagnostic. rewrite Hig.
  rewrite io_bind_unfold, filter_io_exists.
  cbv beta iota.
  assert (Hnil : List.filter (exists_in w) (output_directories cfg) = []).
  { destruct (List.filter _ _) as [|d l] eqn:E; [done|].
    assert (Hin : In d (List.filter (exists_in w) (output_directories cfg)))
      by (rewrite E; by left).
    apply filter_In in Hin as [Hin Ht].
    rewrite (Hex d) in Ht; [done | by apply list_elem_of_In]. }
  rewrite Hnil, io_pure_bind, io_bind_unfold.
  destruct (create_loop_ok _ w Hex Hfile Hord)
    as (w' & E & Hsub & Hd & Hnew & Hl).
  rewrite E. by exists w'.
Qed.

Lemma run_diagnostic_first_run_witness :
  exists w',
    run_diagnostic (Config true true ["run"; "work"] ["run"; "plots"])
      (Arguments false false) (World ∅ [])
    = (Ok (Config true true ["run"; "work"] ["run"; "plots"]), w')
    /\ node_at (files w') ["run"; "plots"] = Some Dir.
Proof.
  destruct (run_diagnostic_first_run
              (Config true true ["run"; "work"] ["run"; "plots"])
              (Arguments false false) (World ∅ []))
    as (w' & E & Hd & _).
  - reflexivity.
  - intros d Hd. apply elem_of_cons in Hd as [->|Hd]; [done|].
    apply elem_of_cons in Hd as [->|Hd]; [done|].
    by apply not_elem_of_nil in Hd.
  - intros d q doc _ _. destruct q; by vm_compute.
  - constructor; [|constructor; [constructor|constructor]].
    constructor; [|constructor]. intros [k Hk]. by inversion Hk.
  - exists w'. split; [exact E|]. apply Hd. right. left.
Defined.

Lemma prefix_antisym (p q : path) : p `prefix_of` q -> q `prefix_of` p -> p = q.
Proof.
  intros [k1 H1] [k2 H2]. rewrite H1 in H2. rewrite <- app_assoc in H2.
  rewrite <- (app_nil_r p) in H2 at 1. apply app_inv_head in H2.
  symmetry in H2. apply app_eq_nil in H2 as [-> _]. by rewrite app_nil_r in H1.
Qed.

(** X17: with [--force], when the work directory and the plot directory
    both exist and neither lies in the other, [run_diagnostic] yields
    the configuration with both directories emptied: everything below
    them is gone, and every other file and directory, the two
    directories included, is as before. *)
Theorem run_diagnostic_force_empties (cfg : config) (args : arguments)
    (w : world) :
  fs_wf (files w) ->
  force args = true -> ignore_existing args = false ->
  write_netcdf cfg = true -> write_plots cfg = true ->
  node_at (files w) (work_dir cfg) = Some Dir ->
  node_at (files w) (plot_dir cfg) = Some Dir ->
  ~ work_dir cfg `prefix_of` plot_dir cfg ->
  ~ plot_dir cfg `prefix_of` work_dir cfg ->
  exists w',
    run_diagnostic cfg args w = (Ok cfg, w')
    /\ forall q,
         files w' !! q
         = if decide (is_under (work_dir cfg) q \/ is_under (plot_dir cfg) q)
           then None else files w !! q.
Proof.
  intros Hwf Hforce Hig Hn Hp Hdw Hdp Hwp Hpw.
  set (work := work_dir cfg) in *. set (plot := plot_dir cfg) in *.
  assert (Hwne : work <> []) by (intros E; apply Hwp; rewrite E; apply prefix_nil).
  assert (Hpne : plot <> []) by (intros E; apply Hpw; rewrite E; apply prefix_nil).
  assert (Hew : exists_in w work = true) by (apply exists_in_true; eauto).
  assert (Hep : exists_in w plot = true) by (apply exists_in_true; eauto).
  unfold run_diagnostic, output_directories. rewrite Hn, Hp, Hforce, Hig.
  fold work plot. cbn [app].
  rewrite io_bind_unfold, filter_io_exists. cbn [List.filter].
  rewrite Hew, Hep. cbv beta iota.
  set (fs2 := filter (fun qn : path * node => ~ plot `prefix_of` qn.1)
                (filter (fun qn : path * node => ~ work `prefix_of` qn.1)
                   (files w))).
  set (w2 := World fs2
               ((log_records w ++ [(INFO, "Removing " +:+ path_str work)])
                ++ [(INFO, "Removing " +:+ path_str plot)])).
  assert (Hrm : for_each_io
                   (fun output_directory =>
                      _ ← logger_emit INFO
                            ("Removing " +:+ path_str output_directory);
                      shutil_rmtree output_directory) [work; plot] w
                 = (Ok tt, w2)).
  { cbn [for_each_io].
    rewrite io_bind_unfold, io_bind_unfold. cbn [logger_emit].
    rewrite shutil_rmtree_dir by done. cbn [files log_records].
    rewrite io_bind_unfold, io_bind_unfold. cbn [logger_emit].
    rewrite shutil_rmtree_dir; [done|].
    cbn [files]. rewrite node_at_rmtree by done. by rewrite decide_False. }
  rewrite io_bind_unfold, Hrm.
  assert (L2 : forall q, fs2 !! q
                 = if decide (plot `prefix_of` q) then None
                   else if decide (work `prefix_of` q) then None
                        else files w !! q).
  { intros q. unfold fs2. rewrite rmtree_lookup.
    destruct (decide (plot `prefix_of` q)); [done|]. apply rmtree_lookup. }
  destruct (create_loop_ok [work; plot] w2) as (w' & E & Hsub & Hd & Hnew & _).
  { intros d Hin. apply exists_in_false.
    apply elem_of_cons in Hin as [->|Hin];
      [|apply elem_of_cons in Hin as [->|Hin];
        [|by apply not_elem_of_nil in Hin]].
    - destruct work as [|a p]; [done|]. cbn [node_at files w2].
      rewrite L2. destruct (decide (plot `prefix_of` a :: p)); [done|].
      by rewrite decide_True.
    - destruct plot as [|a p]; [done|]. cbn [node_at files w2].
      rewrite L2. by rewrite decide_True. }
  { intros d q doc Hin Hq Hnode.
    destruct q as [|a q]; [done|]. cbn [node_at files w2] in Hnode.
    rewrite L2 in Hnode.
    destruct (decide (plot `prefix_of` a :: q)); [done|].
    destruct (decide (work `prefix_of` a :: q)); [done|].
    assert (Hdd : node_at (files w) d = Some Dir).
    { apply elem_of_cons in Hin as [->|Hin]; [done|].
      apply elem_of_cons in Hin as [->|Hin]; [done|].
      by apply not_elem_of_nil in Hin. }
    destruct (decide (a :: q = d)) as [<-|Hne].
    - cbn [node_at] in Hdd. by pose proof (eq_trans (eq_sym Hdd) Hnode).
    - pose proof (fs_wf_prefix (files w) d (a :: q) Hwf
                    ltac:(by rewrite Hdd) Hq Hne) as X.
      cbn [node_at] in X. by pose proof (eq_trans (eq_sym X) Hnode). }
  { constructor; [|constructor; [constructor|constructor]].
    constructor; [done|constructor]. }
  rewrite io_bind_unfold, E. exists w'. split; [done|].
  intros q.
  assert (Hwork : files w' !! work = Some Dir /\ files w !! work = Some Dir).
  { pose proof (Hd work ltac:(left)) as X.
    destruct work as [|a p]; [done|]. done. }
  assert (Hplot : files w' !! plot = Some Dir /\ files w !! plot = Some Dir).
  { pose proof (Hd plot ltac:(right; left)) as X.
    destruct plot as [|a p]; [done|]. done. }
  assert (Hkeep : forall n, fs2 !! q = Some n -> files w' !! q = Some n).
  { intros n Hq. by eapply lookup_weaken. }
  destruct (decide (is_under work q \/ is_under plot q)) as [Hu|Hu].
  - destruct (files w' !! q) as [n|] eqn:Hq; [|done]. exfalso.
    assert (Hf2 : fs2 !! q = None).
    { rewrite L2. destruct (decide (plot `prefix_of` q)); [done|].
      destruct (decide (work `prefix_of` q)) as [|Hnw]; [done|].
      destruct Hu as [[? _]|[? _]]; done. }
    destruct (Hnew q n Hq) as [X|(-> & Hq0 & d & Hin & Hpre)];
      [by pose proof (eq_trans (eq_sym X) Hf2)|].
    assert (Hdin : d = work \/ d = plot).
    { apply elem_of_cons in Hin as [->|Hin]; [by left|].
      apply elem_of_cons in Hin as [->|Hin]; [by right|].
      by apply not_elem_of_nil in Hin. }
    destruct Hu as [[Hu Hne]|[Hu Hne]], Hdin as [-> | ->].
    + apply Hne. by apply prefix_antisym.
    + apply Hwp. by etrans.
    + apply Hpw. by etrans.
    + apply Hne. by apply prefix_antisym.
  - destruct (decide (q = work)) as [->|Hqw]; [by destruct Hwork as [-> ->]|].
    destruct (decide (q = plot)) as [->|Hqp]; [by destruct Hplot as [-> ->]|].
    assert (Hf2 : fs2 !! q = files w !! q).
    { rewrite L2.
      destruct (decide (plot `prefix_of` q)) as [H1|_].
      { exfalso. apply Hu. right. by split. }
      destruct (decide (work `prefix_of` q)) as [H1|_]; [|done].
      exfalso. apply Hu. left. by split. }
    destruct (files w !! q) as [n|] eqn:Hq.
    + by apply Hkeep.
    + destruct (files w' !! q) as [n|] eqn:Hq'; [|done]. exfalso.
      destruct (Hnew q n Hq') as [X|(-> & Hq0 & d & Hin & Hpre)];
        [by pose proof (eq_trans (eq_sym X) Hf2)|].
      assert (Hdin : d = work \/ d = plot).
      { apply elem_of_cons in Hin as [->|Hin]; [by left|].
        apply elem_of_cons in Hin as [->|Hin]; [by right|].
        by apply not_elem_of_nil in Hin. }
      assert (Hne : q <> d) by (by destruct Hdin as [-> | ->]).
      assert (Xd : node_at (files w) q = Some Dir).
      { eapply (fs_wf_prefix _ d); [done| |done|done].
        destruct Hdin as [-> | ->]; eauto. }
      destruct q as [|a q]; [done|]. cbn [node_at] in Xd.
      by pose proof (eq_trans (eq_sym Xd) Hq).
Qed.

Lemma run_diagnostic_force_empties_witness :
  exists w',
    run_diagnostic (Config true true ["w"] ["p"]) (Arguments true false)
      (World {[ ["w"] := Dir; ["w"; "x"] := File TNone; ["p"] := Dir ]} [])
    = (Ok (Config true true ["w"] ["p"]), w')
    /\ files w' !! ["w"; "x"] = None
    /\ files w' !! ["w"] = Some Dir.
Proof.
  destruct (run_diagnostic_force_empties
              (Config true true ["w"] ["p"]) (Arguments true false)
              (World {[ ["w"] := Dir; ["w"; "x"] := File TNone;
                        ["p"] := Dir ]} []))
    as (w' & E & H).
  - intros p n Hp. cbn [files] in Hp.
    apply lookup_insert_Some in Hp as [[<- _]|[_ Hp]]; [reflexivity|].
    apply lookup_insert_Some in Hp as [[<- _]|[_ Hp]]; [reflexivity|].
    apply lookup_singleton_Some in Hp as [<- _]. reflexivity.
  - reflexivity.
  - reflexivity.
  - reflexivity.
  - reflexivity.
  - reflexivity.
  - reflexivity.
  - intros [k Hk]. inversion Hk.
  - intros [k Hk]. inversion Hk.
  - exists w'. split; [exact E|]. rewrite !H. split.
    + rewrite decide_True; [reflexivity|]. left.
      split; [by exists ["x"] | intros Hk; inversion Hk].
    + rewrite decide_False; [reflexivity|].
      intros [[_ Hne]|[[k Hk] _]]; [by apply Hne | inversion Hk].
Defined.

(** * File names of plots and diagnostic data *)






Lemma starts_with_sep_filename basename extension :
  starts_with_sep (basename +:+ "." +:+ extension) = starts_with_sep basename.
Proof. by destruct basename. Qed.





(** X19: a base name that starts with ["/"] escapes the configured
    directory: the path returned is the base name with its extension,
    whatever [plot_dir] or [work_dir] is; and a configuration without
    the directory raises [KeyError] for it before anything else is
    looked at. *)
Theorem output_filename_absolute (cfg : gmap string pyval)
    (basename extension : string) :
  starts_with_sep basename = true ->
  (forall dir ext, cfg !! "plot_dir" = Some (VStr dir) ->
     cfg !! "output_file_type" = Some (VStr ext) ->
     get_plot_filename basename cfg = Ok (basename +:+ "." +:+ ext))
  /\ (forall dir, cfg !! "work_dir" = Some (VStr dir) ->
        get_diagnostic_filename basename cfg extension
        = Ok (basename +:+ "." +:+ extension))
  /\ (cfg !! "plot_dir" = None ->
        get_plot_filename basename cfg = Raise (KeyError "plot_dir"))
  /\ (cfg !! "work_dir" = None ->
        get_diagnostic_filename basename cfg extension
        = Raise (KeyError "work_dir")).
Proof.
  intros H. split; [|split; [|split]].
  - intros dir ext Hd He. unfold get_plot_filename, cfg_get. rewrite Hd, He.
    cbn [mbind result_bind rbind as_str join_in_dir]. unfold os_path_join.
    by rewrite starts_with_sep_filename, H.
  - intros dir Hd. unfold get_diagnostic_filename, cfg_get. rewrite Hd.
    cbn [mbind result_bind rbind as_str join_in_dir]. unfold os_path_join.
    by rewrite starts_with_sep_filename, H.
  - intros Hd. unfold get_plot_filename, cfg_get. by rewrite Hd.
  - intros Hd. unfold get_diagnostic_filename, cfg_get. by rewrite Hd.
Qed.

Lemma output_filename_absolute_witness :
  get_plot_filename "/tmp/a"
    {[ "plot_dir" := VStr "p"; "output_file_type" := VStr "png" ]}
  = Ok "/tmp/a.png".
Proof.
  destruct (output_filename_absolute
              {[ "plot_dir" := VStr "p"; "output_file_type" := VStr "png" ]}
              "/tmp/a" "nc") as [H _]; [reflexivity|].
  by apply (H "p" "png").
Defined.
